(** * Assertions: a shallow embedding of [assertions.go]

    The Go package offers test assertions ([ErrorsMatch], [Equal],
    [SlicesMatch], [MapsMatch], ...) built on [reflect.DeepEqual], two
    collection differs ([nonMatchingMaps], [nonMatchingSlices]) and a guarded
    call ([panicHandler]).  Each Go function is transcribed as a Rocq
    function of the same name; a run-time panic is the [None] of an option
    result, the test handle is a value threaded through the calls. *)

From Stdlib Require Import ZArith String List Permutation.
From Stdlib Require Import Floats.SpecFloat.
From stdpp Require Import gmap strings list fin_maps.

Local Open Scope string_scope.
#[local] Set Warnings "-clear-no-such-hyp".

(** ** Go values and [reflect.DeepEqual] *)

(** A Go value as [reflect.DeepEqual] sees it once boxed in an [any].
    Slices and pointers carry the address they refer to, next to the contents
    found there; a non-nil func carries an identity only. [VNil] is the nil of
    a nilable type. *)
#[warnings="-register-all"]
Inductive value : Type :=
  | VNil
  | VBool (b : bool)
  | VInt (n : Z)
  | VFloat (f : spec_float)
  | VString (s : string)
  | VArray (elems : list value)
  | VStruct (fields : list value)
  | VSlice (data : N) (elems : list value)
  | VPtr (addr : N) (pointee : value)
  | VFunc (code : N).

(** [math.NaN()] and [math.IsNaN] *)
Definition NaN : value := VFloat S754_nan.

Definition isNaN (f : spec_float) : bool :=
  match f with
  | S754_nan => true
  | _ => false
  end.

(** Go's [==] on floating-point numbers: IEEE comparison, so a NaN differs from
    everything, itself included, and the two zeros are equal. *)
Definition floatEq (x y : spec_float) : bool := SFeqb x y.

(** [reflect.DeepEqual] belongs to Go's library, not to this package, which
    imports it ([assertions.go], line 5) and calls it in [Equal],
    [nonMatchingMaps] and [nonMatchingSlices]. It is transcribed from the
    rules of its documentation: values of distinct types are never deeply
    equal; arrays and structs are compared element by element; two slices are
    deeply equal when both are nil or both non-nil, they have the same length
    and either point to the same initial entry of the same array or have
    deeply equal elements; pointers when they are equal by [==] or point to
    deeply equal values; func values only when both are nil; numbers, bools
    and strings by [==]. Maps and cyclic values are left out. [value] does not
    record dynamic types: the verdict is the one of [reflect.DeepEqual] on two
    values of one dynamic type (as the two arguments of [Equal] are when [T] is
    not an interface type); on values of two different dynamic types
    [reflect.DeepEqual] returns false before it looks at them. *)
Fixpoint deepValueEqual (v1 v2 : value) {struct v1} : bool :=
  let fix elementsEqual (l1 l2 : list value) {struct l1} : bool :=
    match l1, l2 with
    | [], [] => true
    | x :: l1', y :: l2' => deepValueEqual x y && elementsEqual l1' l2'
    | _, _ => false
    end in
  match v1, v2 with
  | VNil, VNil => true
  | VBool a, VBool b => Bool.eqb a b
  | VInt a, VInt b => Z.eqb a b
  | VFloat a, VFloat b => floatEq a b
  | VString a, VString b => String.eqb a b
  | VArray l1, VArray l2 => elementsEqual l1 l2
  | VStruct l1, VStruct l2 => elementsEqual l1 l2
  | VSlice p1 l1, VSlice p2 l2 =>
      if negb (length l1 =? length l2)%nat then false
      else if N.eqb p1 p2 then true
      else elementsEqual l1 l2
  | VPtr p1 x, VPtr p2 y =>
      if N.eqb p1 p2 then true else deepValueEqual x y
  | VFunc _, VFunc _ => false
  | _, _ => false
  end.

(** The element-wise loop of [deepValueEqual], as a function of its own. *)
Fixpoint elementsEqual (l1 l2 : list value) : bool :=
  match l1, l2 with
  | [], [] => true
  | x :: l1', y :: l2' => deepValueEqual x y && elementsEqual l1' l2'
  | _, _ => false
  end.

(** What the assertions need of a Go type: its zero value and the verdict of
    [reflect.DeepEqual] on two values of the type. *)
Class GoType (T : Type) := {
  zero : T;
  DeepEqual : T → T → bool
}.

(** [any]: the zero value is the nil interface. *)
#[export] Instance any_GoType : GoType value :=
  {| zero := VNil; DeepEqual := deepValueEqual |}.

(** [int] *)
#[export] Instance int_GoType : GoType Z :=
  {| zero := 0%Z; DeepEqual := Z.eqb |}.

(** [string] *)
#[export] Instance string_GoType : GoType string :=
  {| zero := ""; DeepEqual := String.eqb |}.

(** ** The test handle *)

(** A [testing.TB] as the assertions use it: [Logf] records a format with its
    arguments, [FailNow] marks the test as failed. Every assertion returns
    right after [errorfNow] ([assertions.go], lines 10-13), so that a passing
    call leaves the handle as it was. *)
Record TB (A : Type) := mkTB {
  failed : bool;
  logged : list (string * list A)
}.
Arguments mkTB {A} _ _.
Arguments failed {A} _.
Arguments logged {A} _.

Definition Logf {A} (tb : TB A) (format : string) (args : list A) : TB A :=
  mkTB (failed tb) (logged tb ++ [(format, args)]).

Definition FailNow {A} (tb : TB A) : TB A :=
  mkTB true (logged tb).

Definition errorfNow {A} (tb : TB A) (format : string) (args : list A) : TB A :=
  FailNow (Logf tb format args).

(** A fresh handle, as the test framework hands it to a test. *)
Definition newTB {A} : TB A := mkTB false [].

(** ** Errors *)

(** The dynamic type of a non-nil error. Go compares two values of a
    comparable type (a pointer, as the errors of [errors.New] and
    [fmt.Errorf] are, a string, a struct of comparable fields) and panics when
    asked to compare two values of a type that is not comparable (a slice, a
    map, a struct holding one). *)
Inductive errorType :=
  | Comparable (name : N)
  | Uncomparable (name : N).

Definition sameErrorType (t1 t2 : errorType) : bool :=
  match t1, t2 with
  | Comparable n1, Comparable n2 => N.eqb n1 n2
  | Uncomparable n1, Uncomparable n2 => N.eqb n1 n2
  | _, _ => false
  end.

(** A non-nil error: its dynamic type and its dynamic value; two values of
    one comparable type are equal by [==] exactly when [val] is the same (for
    a pointer, the address). *)
Record errorObject := mkError {
  dynamicType : errorType;
  val : N
}.

(** An [error] is nil or holds an error object. *)
Definition error := option errorObject.

(** [expected != input] on two error interfaces; [None] is the run-time
    panic on two values of the same type that is not comparable. *)
Definition errorNe (e1 e2 : error) : option bool :=
  match e1, e2 with
  | None, None => Some false
  | Some o1, Some o2 =>
      if sameErrorType (dynamicType o1) (dynamicType o2) then
        match dynamicType o1 with
        | Comparable _ => Some (negb (N.eqb (val o1) (val o2)))
        | Uncomparable _ => None
        end
      else Some true
  | _, _ => Some true
  end.

Definition ErrorsMatch_failureFormat : string :=
  "Errors do not match\n > expected: %v\n < input:    %v\n".

Section Errors.
(** The text that the [Error] method of an error object returns. *)
Variable errorText : errorObject → string.

(** [e.Error()]: a nil dereference on the nil error. *)
Definition Error_ (e : error) : option string :=
  match e with
  | None => None
  | Some o => Some (errorText o)
  end.

(** [ErrorsMatch] ([assertions.go], lines 38-53); [None] is a panic. *)
Definition ErrorsMatch (tb : TB error) (expected input : error) : option (TB error) :=
  notEqual ← errorNe expected input;
  if notEqual : bool then
    if bool_decide (expected = None) || bool_decide (input = None) then
      Some (errorfNow tb ErrorsMatch_failureFormat [expected; input])
    else
      e ← Error_ expected;
      i ← Error_ input;
      if negb (String.eqb e i) then
        Some (errorfNow tb ErrorsMatch_failureFormat [expected; input])
      else Some tb
  else Some tb.

End Errors.

(** ** Equal *)

(** [Equal] ([assertions.go], lines 56-61) *)
Definition Equal_failureFormat : string :=
  "Values are not equal\n > expected: %v\n < input:    %v\n".

Definition Equal {T} `{GoType T} (tb : TB T) (expected input : T) : TB T :=
  if negb (DeepEqual expected input) then
    errorfNow tb Equal_failureFormat [expected; input]
  else tb.

(** ** The sequence differ *)

Section Slices.
Context {E : Type} `{GoType E}.

(** The inner loop of [nonMatchingSlices] ([assertions.go], lines 97-103 and
    113-119): [for i, e := range s], looking for
    the first element that is not yet claimed ([!visited[i]]) and that
    [matches]; the element found is claimed. The result is the marker array
    and [found]; [None] is the index-out-of-range panic of [visited[i]]. *)
Fixpoint scan (matches : E → bool) (s : list E) (visited : list bool) (i : nat)
  : option (list bool * bool) :=
  match s with
  | [] => Some (visited, false)
  | e :: s' =>
      match visited !! i with
      | None => None
      | Some v =>
          if negb v && matches e then Some (<[i:=true]> visited, true)
          else scan matches s' visited (S i)
      end
  end.

(** The outer loop (lines 95-107 and 111-123): every element of [xs] without
    a counterpart in [ys] is appended to [nonMatched]. *)
Fixpoint differ (eq : E → E → bool) (xs ys : list E) (visited : list bool)
  (nonMatched : list E) : option (list bool * list E) :=
  match xs with
  | [] => Some (visited, nonMatched)
  | x :: xs' =>
      match scan (eq x) ys visited 0 with
      | None => None
      | Some (visited', found) =>
          differ eq xs' ys visited'
            (if negb found then nonMatched ++ [x] else nonMatched)
      end
  end.

(** [make([]bool, n)] and the builtin [clear] on a slice *)
Definition makeBools (n : nat) : list bool := replicate n false.
Definition clear (visited : list bool) : list bool := (λ _, false) <$> visited.

(** [nonMatchingSlices] ([assertions.go], lines 89-126). A nil slice and an
    empty one are both [[]]: the function only takes lengths and ranges over
    its arguments. The first pass compares [DeepEqual(elementA, elementB)]
    with [elementA] from the outer loop, the second with [elementA] from the
    inner loop. *)
Definition nonMatchingSlices (a b : list E) : option (list E * list E) :=
  let nonMatchedA := [] in
  let nonMatchedB := [] in
  let visited := makeBools (length a) in
  '(visited, nonMatchedA) ←
    differ (λ elementA elementB, DeepEqual elementA elementB) a b visited nonMatchedA;
  let visited := clear visited in
  '(_, nonMatchedB) ←
    differ (λ elementB elementA, DeepEqual elementA elementB) b a visited nonMatchedB;
  Some (nonMatchedA, nonMatchedB).

(** What [SlicesMatch] hands to [Logf]: a length or a slice. *)
Inductive sliceArg :=
  | ArgLen (n : nat)
  | ArgSlice (s : list E).

Definition SlicesMatch_lengthFormat : string :=
  "Elements do not match, slices have different lengths\n > expected length: %v\n, < input length:    %v\n".

Definition SlicesMatch_failureFormat : string :=
  "Elements do not match\n > expected: %#v\n < input:    %#v\n".

(** [SlicesMatch] ([assertions.go], lines 131-146), over the differ it
    calls. *)
Definition SlicesMatchWith (nonMatching : list E → list E → option (list E * list E))
  (tb : TB sliceArg) (expected input : list E) : option (TB sliceArg) :=
  if negb (length expected =? length input)%nat then
    Some (errorfNow tb SlicesMatch_lengthFormat
            [ArgLen (length expected); ArgLen (length input)])
  else
    '(expectedNoMatch, inputNoMatch) ← nonMatching expected input;
    if (0 <? length expectedNoMatch)%nat || (0 <? length inputNoMatch)%nat then
      Some (errorfNow tb SlicesMatch_failureFormat
              [ArgSlice expectedNoMatch; ArgSlice inputNoMatch])
    else Some tb.

Definition SlicesMatch : TB sliceArg → list E → list E → option (TB sliceArg) :=
  SlicesMatchWith nonMatchingSlices.

End Slices.

(** ** The mapping differ *)

Section Maps.
Context {K : Type} `{Countable K} {U : Type} {E : Type} `{GoType E}.

(** A key of a Go map. [Key k] is a key that [==] finds equal to itself, and
    [K] holds such keys up to [==]. [NaNKey u] is a key that [==] does not
    find equal to itself: a floating-point NaN, or an array, struct or
    interface holding one. *)
Inductive key :=
  | Key (k : K)
  | NaNKey (u : U).

(** A map object. An index expression [m[k]] with a NaN key finds no entry,
    and an assignment [m[k] = v] with a NaN key adds an entry each time, so
    that the entries under NaN keys are a bag, kept here as a list, beside
    the finite map of the other entries. *)
Record mapObject := mkMap {
  found : gmap K E;
  lost : list (U * E)
}.

(** [make(T)] *)
#[export] Instance mapObject_empty : Empty mapObject := mkMap ∅ [].

(** A Go map value: nil ([None]) or a map object. *)
Local Abbreviation gomap := (option mapObject).

(** Ranging over, indexing and measuring a nil map is as for an empty one:
    the entries under the keys that can be found, and those under NaN
    keys. *)
Definition entries (m : gomap) : gmap K E := from_option found ∅ m.
Definition nanEntries (m : gomap) : list (U * E) := from_option lost [] m.

(** [v, ok := m[k]] *)
Definition index (m : gomap) (k : key) : E * bool :=
  match k with
  | Key k =>
      match entries m !! k with
      | Some v => (v, true)
      | None => (zero, false)
      end
  | NaNKey _ => (zero, false)
  end.

(** [m[k] = v] *)
Definition assign (m : mapObject) (k : key) (v : E) : mapObject :=
  match k with
  | Key k => mkMap (<[k:=v]> (found m)) (lost m)
  | NaNKey u => mkMap (found m) (lost m ++ [(u, v)])
  end.

Definition len (m : gomap) : nat :=
  (size (entries m) + length (nanEntries m))%nat.

(** [for k, v := range m]: every entry once, in an order of the map's own;
    here the entries that can be found, as [map_fold] visits them, and then
    those under NaN keys. *)
Definition range {S : Type} (body : key → E → S → S) (m : gomap) (s : S) : S :=
  foldl (λ s e, body (NaNKey e.1) e.2 s)
    (map_fold (λ k v s, body (Key k) v s) s (entries m))
    (nanEntries m).

(** The body of the first loop of [nonMatchingMaps] ([assertions.go], lines
    67-76), for the entry [ak, av] of [a]. *)
Definition compareEntry (b : gomap) (ak : key) (av : E)
  (out : mapObject * mapObject) : mapObject * mapObject :=
  let '(aout, bout) := out in
  let '(bv, ok) := index b ak in
  let aout := if negb ok then assign aout ak av else aout in
  if negb (DeepEqual av bv) then (assign aout ak av, assign bout ak bv)
  else (aout, bout).

(** The body of the second loop (lines 78-84), for the entry [bk, bv] of
    [b]. *)
Definition addMissing (a : gomap) (bk : key) (bv : E) (bout : mapObject) : mapObject :=
  let '(_, ok) := index a bk in
  if negb ok then assign bout bk bv else bout.

(** [nonMatchingMaps] ([assertions.go], lines 63-87); both results are made
    with [make] and so are never nil. *)
Definition nonMatchingMaps (a b : gomap) : gomap * gomap :=
  let aout : mapObject := ∅ in
  let bout : mapObject := ∅ in
  let '(aout, bout) := range (compareEntry b) a (aout, bout) in
  let bout := range (addMissing a) b bout in
  (Some aout, Some bout).

Definition MapsMatch_failureFormat : string :=
  "Elements do not match\n > expected: %#v\n < input:    %#v\n".

(** [MapsMatch] ([assertions.go], lines 151-159) *)
Definition MapsMatch (tb : TB gomap) (expected input : gomap) : TB gomap :=
  let '(expectedNoMatch, inputNoMatch) := nonMatchingMaps expected input in
  if (0 <? len expectedNoMatch)%nat || (0 <? len inputNoMatch)%nat then
    errorfNow tb MapsMatch_failureFormat [expectedNoMatch; inputNoMatch]
  else tb.

End Maps.

Arguments key : clear implicits.
Arguments mapObject K {_ _} U E.
Arguments mkMap {K _ _ U E} found lost.

(** [map[K]E], with [U] for the NaN keys of the key type ([Empty_set] when it
    has none, as for strings and integers). *)
Abbreviation gomap K U E := (option (mapObject K U E)).


(** ** Panic capture *)

(** How a call ends: it returns, or it panics with a payload. *)
Inductive completion :=
  | Returned
  | Panicking (payload : value).

(** A [func()], by the way a call of it ends. *)
Definition func := unit → completion.

(** The named results of [panicHandler]. *)
Record results := mkResults {
  panicked : bool;
  msg : value;
  stack : string
}.

(** [recover()] in a deferred call: the payload of the panic under way, which
    it stops; nil when there is none. *)
Definition recover (c : completion) : value * completion :=
  match c with
  | Returned => (VNil, Returned)
  | Panicking v => (v, Returned)
  end.

Section PanicCapture.
(** [string(debug.Stack())] at the point of the deferred call *)
Variable debug_Stack : string.

(** The deferred closure of [panicHandler] ([assertions.go], lines
    175-180). *)
Definition deferred (r : results) (c : completion) : results * completion :=
  let '(m, c) := recover c in
  let r := mkResults (panicked r) m (stack r) in
  let r := if panicked r then mkResults (panicked r) (msg r) debug_Stack else r in
  (r, c).

(** [panicHandler] ([assertions.go], lines 172-185): the results it returns
    with, and how its own call ends. The named results start at their zero
    values; when [fn] panics the rest of the body is skipped and the deferred
    closure runs. *)
Definition panicHandler (fn : func) : results * completion :=
  let r := mkResults false VNil "" in
  let r := mkResults true (msg r) (stack r) in
  let '(r, c) :=
    match fn () with
    | Returned => (mkResults false (msg r) (stack r), Returned)
    | Panicking v => (r, Panicking v)
    end in
  deferred r c.

End PanicCapture.

(** ** Vocabulary of the properties *)

(** A value that [reflect.DeepEqual] finds equal to itself: neither a NaN nor
    a non-nil func, nor an array or struct holding one; a slice or a pointer
    always is, whatever it refers to. *)
Fixpoint selfEqual (v : value) : bool :=
  match v with
  | VFloat f => negb (isNaN f)
  | VFunc _ => false
  | VArray l | VStruct l =>
      (fix all (l : list value) : bool :=
         match l with
         | [] => true
         | x :: l' => selfEqual x && all l'
         end) l
  | _ => true
  end.

(** A value with no NaN and no func anywhere, behind slices and pointers
    included. *)
Fixpoint plain (v : value) : bool :=
  match v with
  | VFloat f => negb (isNaN f)
  | VFunc _ => false
  | VArray l | VStruct l | VSlice _ l =>
      (fix all (l : list value) : bool :=
         match l with
         | [] => true
         | x :: l' => plain x && all l'
         end) l
  | VPtr _ x => plain x
  | _ => true
  end.

(** A value holding a NaN somewhere. *)
Fixpoint containsNaN (v : value) : bool :=
  match v with
  | VFloat f => isNaN f
  | VArray l | VStruct l | VSlice _ l =>
      (fix any (l : list value) : bool :=
         match l with
         | [] => false
         | x :: l' => containsNaN x || any l'
         end) l
  | VPtr _ x => containsNaN x
  | _ => false
  end.

(** [[]any{n1, n2, ...}] *)
Definition ints (l : list Z) : list value := VInt <$> l.

Section Counting.
Context {E : Type}.

(** The elements of [s] whose marker is still unset. *)
Fixpoint unclaimed (s : list E) (visited : list bool) : list E :=
  match s, visited with
  | e :: s', v :: visited' =>
      if v then unclaimed s' visited' else e :: unclaimed s' visited'
  | _, _ => []
  end.

(** How many elements of [l] satisfy [p]. *)
Fixpoint countIf (p : E → bool) (l : list E) : nat :=
  match l with
  | [] => 0
  | x :: l' => (if p x then 1 else 0) + countIf p l'
  end.

End Counting.

Section MapResidues.
Context {K : Type} `{Countable K} {E : Type} `{GoType E}.

(** The entry of the first residue of [nonMatchingMaps a b] at a key, from
    the entries of [a] and [b] there. *)
Definition residueA (av bv : option E) : option E :=
  match av, bv with
  | Some x, Some y => if DeepEqual x y then None else Some x
  | Some x, None => Some x
  | None, _ => None
  end.

(** The same for the second residue. *)
Definition residueB (av bv : option E) : option E :=
  match av, bv with
  | Some x, Some y => if DeepEqual x y then None else Some y
  | Some x, None => if DeepEqual x zero then None else Some zero
  | None, y => y
  end.

(** What the first loop adds to the first residue for the entries of [a]
    under NaN keys: each entry, and once more when its value is not deeply
    equal to the zero value. *)
Definition nanResidueA {U} (l : list (U * E)) : list (U * E) :=
  flat_map (λ e, if DeepEqual e.2 zero then [e] else [e; e]) l.

(** What it adds to the second residue for them: the key with the zero
    value, when the value is not deeply equal to the zero value. *)
Definition nanResidueB {U} (l : list (U * E)) : list (U * E) :=
  flat_map (λ e, if DeepEqual e.2 zero then [] else [(e.1, zero)]) l.

End MapResidues.

(** An equivalence on the elements that satisfy [C], as a boolean test. *)
Record equivalenceOn {E} (C : E → Prop) (eq : E → E → bool) : Prop := {
  eq_refl_on : ∀ x, C x → eq x x = true;
  eq_sym_on : ∀ x y, C x → C y → eq x y = true → eq y x = true;
  eq_trans_on : ∀ x y z, C x → C y → C z →
    eq x y = true → eq y z = true → eq x z = true
}.

(** ** NoError and Error *)

Definition NoError_failureFormat : string :=
  "Unexpected error occurred\n > Error: %v\n".

(** [NoError] ([assertions.go], lines 16-23) *)
Definition NoError (tb : TB error) (input : error) : TB error :=
  if negb (bool_decide (input = None)) then
    errorfNow tb NoError_failureFormat [input]
  else tb.

Definition Error_failureFormat : string :=
  "expected error did not occur\n".

(** [Error] ([assertions.go], lines 26-33) *)
Definition Error (tb : TB error) (input : error) : TB error :=
  if bool_decide (input = None) then
    errorfNow tb Error_failureFormat []
  else tb.

(** ** Within *)

(** A type of [cmp.Ordered], by its [<]. *)
Class Ordered (T : Type) := {
  less : T → T → bool
}.

(** [int] *)
#[export] Instance int_Ordered : Ordered Z := {| less := Z.ltb |}.

(** [float64]: the IEEE comparison, false whenever a NaN is involved. *)
#[export] Instance float64_Ordered : Ordered spec_float := {| less := SFltb |}.

Definition Within_failureFormat : string :=
  "value is not in the expected range\n > expected: [%v, %v]\n < input: %v\n".

(** [Within] ([assertions.go], lines 163-170); [input > maxT] is
    [maxT < input]. *)
Definition Within {T} `{Ordered T} (tb : TB T) (minT maxT input : T) : TB T :=
  if less input minT || less maxT input then
    errorfNow tb Within_failureFormat [minT; maxT; input]
  else tb.

(** ** Panics and NotPanics *)

(** What [Panics] and [NotPanics] hand to [Logf]: the function, the recovered
    value, the stack trace. *)
Inductive panicArg :=
  | ArgFunc (fn : func)
  | ArgRecovered (v : value)
  | ArgStack (trace : string).

Definition Panics_failureFormat : string :=
  "function %#v did not panic\n > revcovered value: %#v\n".

Definition NotPanics_failureFormat : string :=
  "function %#v panic\n > revcovered value: %#v\n > stack: %v\n".

Section PanicAssertions.
Variable debug_Stack : string.

(** [Panics] ([assertions.go], lines 188-196): the handle it leaves and how
    its own call ends; a panic leaving [panicHandler] would leave [Panics]. *)
Definition Panics (tb : TB panicArg) (fn : func) : TB panicArg * completion :=
  match panicHandler debug_Stack fn with
  | (r, Returned) =>
      if negb (panicked r) then
        (errorfNow tb Panics_failureFormat [ArgFunc fn; ArgRecovered (msg r)],
         Returned)
      else (tb, Returned)
  | (_, Panicking v) => (tb, Panicking v)
  end.

(** [NotPanics] ([assertions.go], lines 199-207) *)
Definition NotPanics (tb : TB panicArg) (fn : func) : TB panicArg * completion :=
  match panicHandler debug_Stack fn with
  | (r, Returned) =>
      if panicked r then
        (errorfNow tb NotPanics_failureFormat
           [ArgFunc fn; ArgRecovered (msg r); ArgStack (stack r)],
         Returned)
      else (tb, Returned)
  | (_, Panicking v) => (tb, Panicking v)
  end.

End PanicAssertions.

(** ** The test double *)

Module Tester.

(** [TesterTB]: the handle it wraps, the outcome it is to see, and whether a
    failure was signalled to it. The wrapped handle receives the two flags
    as arguments of [Logf]. *)
Record TesterTB := mkTester {
  TB_ : TB bool;
  mustfail : bool;
  failed : bool
}.

Definition setFailed (t : TesterTB) : TesterTB :=
  mkTester (TB_ t) (mustfail t) true.

Definition AssertExpectation_format : string :=
  "Failure was not as expected:\n > expected: %v\n < actual: %v\n".

(** [AssertExpectation]: the wrapped handle is told, by its own [Logf] and
    [FailNow], when the outcome seen is not the one announced. *)
Definition AssertExpectation (t : TesterTB) : TesterTB :=
  if negb (Bool.eqb (failed t) (mustfail t)) then
    mkTester
      (FailNow
         (Logf (TB_ t) AssertExpectation_format [mustfail t; failed t]))
      (mustfail t) (failed t)
  else t.

(** The methods of [*TesterTB]; the arguments are ignored, as in the
    source. *)
Definition Error {A} (t : TesterTB) (args : list A) : TesterTB := setFailed t.
Definition Errorf {A} (t : TesterTB) (format : string) (args : list A) : TesterTB :=
  setFailed t.
Definition Fail (t : TesterTB) : TesterTB := setFailed t.
Definition FailNow (t : TesterTB) : TesterTB := setFailed t.
Definition Failed (t : TesterTB) : bool := failed t.
Definition Fatal {A} (t : TesterTB) (args : list A) : TesterTB := setFailed t.
Definition Fatalf {A} (t : TesterTB) (format : string) (args : list A) : TesterTB :=
  setFailed t.
Definition Log {A} (t : TesterTB) (args : list A) : TesterTB := t.
Definition Logf {A} (t : TesterTB) (format : string) (args : list A) : TesterTB := t.

(** [NewTester] *)
Definition NewTester (tb : TB bool) (mustfail : bool) : TesterTB :=
  mkTester tb mustfail false.

(** A call of one of the methods that return nothing. *)
Inductive call :=
  | CallError
  | CallErrorf
  | CallFail
  | CallFailNow
  | CallFatal
  | CallFatalf
  | CallLog
  | CallLogf.

Definition signalsFailure (c : call) : bool :=
  match c with
  | CallLog | CallLogf => false
  | _ => true
  end.

Definition perform (t : TesterTB) (c : call) : TesterTB :=
  match c with
  | CallError => Error t (@nil value)
  | CallErrorf => Errorf t "" (@nil value)
  | CallFail => Fail t
  | CallFailNow => FailNow t
  | CallFatal => Fatal t (@nil value)
  | CallFatalf => Fatalf t "" (@nil value)
  | CallLog => Log t (@nil value)
  | CallLogf => Logf t "" (@nil value)
  end.

End Tester.

(** ** More vocabulary *)


(** The kind of a value: its constructor. *)
Definition kind (v : value) : nat :=
  match v with
  | VNil => 0
  | VBool _ => 1
  | VInt _ => 2
  | VFloat _ => 3
  | VString _ => 4
  | VArray _ => 5
  | VStruct _ => 6
  | VSlice _ _ => 7
  | VPtr _ _ => 8
  | VFunc _ => 9
  end.

(** Two non-nil errors of one dynamic type that is not comparable: the
    operands on which [==] and [!=] panic. *)
Definition bothUncomparable (e1 e2 : error) : bool :=
  match e1, e2 with
  | Some o1, Some o2 =>
      sameErrorType (dynamicType o1) (dynamicType o2)
      && match dynamicType o1 with
         | Uncomparable _ => true
         | Comparable _ => false
         end
  | _, _ => false
  end.

(** * Properties *)

Local Close Scope string_scope.

(** ** The test handle *)

Lemma errorfNow_failed {A} (tb : TB A) format args :
  failed (errorfNow tb format args) = true.
Proof. reflexivity. Qed.

Lemma errorfNow_logged {A} (tb : TB A) format args :
  logged (errorfNow tb format args) = (logged tb ++ [(format, args)])%list.
Proof. reflexivity. Qed.

Lemma errorfNow_neq {A} (tb : TB A) format args :
  errorfNow tb format args ≠ tb.
Proof.
  intros Heq. apply (f_equal (λ t, length (logged t))) in Heq.
  rewrite errorfNow_logged, length_app in Heq. simpl in Heq. lia.
Qed.

(** ** ErrorsMatch *)

Lemma sameErrorType_eq (t1 t2 : errorType) :
  sameErrorType t1 t2 = true ↔ t1 = t2.
Proof.
  destruct t1 as [n1|n1], t2 as [n2|n2]; simpl; rewrite ?N.eqb_eq;
    naive_solver.
Qed.

(** [ErrorsMatch] panics exactly at the comparison of two errors of one
    uncomparable dynamic type. *)
Lemma ErrorsMatch_panic_iff (errorText : errorObject → string) (tb : TB error)
  (expected input : error) :
  ErrorsMatch errorText tb expected input = None
  ↔ bothUncomparable expected input = true.
Proof.
  destruct expected as [[t1 v1]|], input as [[t2 v2]|];
    unfold ErrorsMatch; simpl; try done.
  destruct (sameErrorType t1 t2); simpl.
  - destruct t1; simpl; [|done].
    destruct (N.eqb v1 v2); simpl; [done|].
    by destruct (negb _).
  - by destruct (negb _).
Qed.

(** When it does not panic, [ErrorsMatch] leaves the handle untouched exactly
    when both errors are nil, or they are the same value, or both are non-nil
    with the same text; it logs the mismatch and fails exactly when one of
    the two is nil and the other is not, or both are non-nil with different
    texts. *)
Lemma ErrorsMatch_comparable_spec (errorText : errorObject → string)
  (tb : TB error) (expected input : error) :
  bothUncomparable expected input = false →
  is_Some (ErrorsMatch errorText tb expected input)
  ∧ (ErrorsMatch errorText tb expected input = Some tb
     ↔ (expected = None ∧ input = None)
       ∨ expected = input
       ∨ (∃ p q, expected = Some p ∧ input = Some q ∧ errorText p = errorText q))
  ∧ (ErrorsMatch errorText tb expected input
       = Some (errorfNow tb ErrorsMatch_failureFormat [expected; input])
     ↔ (expected = None ∧ input ≠ None)
       ∨ (expected ≠ None ∧ input = None)
       ∨ (∃ p q, expected = Some p ∧ input = Some q ∧ errorText p ≠ errorText q)).
Proof.
  pose proof (errorfNow_neq tb ErrorsMatch_failureFormat [expected; input]) as Hne.
  destruct expected as [[t1 v1]|], input as [[t2 v2]|];
    unfold ErrorsMatch; simpl; try naive_solver.
  destruct (sameErrorType t1 t2) eqn:Ht; simpl.
  - apply sameErrorType_eq in Ht as <-.
    destruct t1; simpl; [|done]. intros _.
    destruct (N.eqb_spec v1 v2) as [->|Hv]; simpl; [naive_solver|].
    destruct (String.eqb_spec (errorText (mkError (Comparable name) v1))
                (errorText (mkError (Comparable name) v2))); simpl;
      naive_solver.
  - intros _.
    destruct (String.eqb_spec (errorText (mkError t1 v1))
                (errorText (mkError t2 v2))); simpl; [|naive_solver].
    split; [eauto|]. split; [|naive_solver].
    split; [eauto 10|]. intros _. done.
Qed.

(** C8. On two errors of one dynamic type that is not comparable (a slice
    type with an [Error] method, say), [ErrorsMatch] panics at
    [expected != input], whatever their texts: it neither passes nor fails,
    identical texts included. *)
Theorem ErrorsMatch_panics_on_uncomparable (errorText : errorObject → string)
  (tb : TB error) (t v1 v2 : N) :
  let expected := Some (mkError (Uncomparable t) v1) in
  let input := Some (mkError (Uncomparable t) v2) in
  ErrorsMatch errorText tb expected input = None
  ∧ ErrorsMatch (λ _, "x"%string) tb expected input = None.
Proof.
  split; apply ErrorsMatch_panic_iff; simpl; by rewrite N.eqb_refl.
Qed.

(** ** Panic capture *)

(** C9. When [fn] returns, [panicHandler] returns [false], the nil value and
    the empty string; when [fn] panics, it returns [true], the payload of the
    panic and the stack snapshot, which is not empty as [debug.Stack] never
    gives an empty trace. Either way [panicHandler] itself returns: the panic
    does not cross it. *)
Theorem panicHandler_spec (debug_Stack : string) (fn : func)
  (Hstack : debug_Stack ≠ ""%string) :
  match fn () with
  | Returned =>
      panicHandler debug_Stack fn = (mkResults false VNil ""%string, Returned)
  | Panicking payload =>
      ∃ trace, trace ≠ ""%string
        ∧ panicHandler debug_Stack fn = (mkResults true payload trace, Returned)
  end.
Proof.
  unfold panicHandler. destruct (fn ()) as [|payload]; simpl.
  - reflexivity.
  - exists debug_Stack. split; [assumption | reflexivity].
Qed.

(** A callback that panics with a string, under a one-line stack trace. *)
Lemma panicHandler_spec_witness :
  ∃ trace, trace ≠ ""%string
    ∧ panicHandler "goroutine 1 [running]:"%string (λ _, Panicking (VString "boom"%string))
      = (mkResults true (VString "boom"%string) trace, Returned).
Proof.
  exact (panicHandler_spec "goroutine 1 [running]:"%string
           (λ _, Panicking (VString "boom"%string)) ltac:(discriminate)).
Defined.

Lemma panicHandler_returns (debug_Stack : string) (fn : func) :
  (panicHandler debug_Stack fn).2 = Returned.
Proof. unfold panicHandler. by destruct (fn ()). Qed.

(** ** SlicesMatch on slices of different lengths *)




(** ** The scenario of the test "int no match" *)

(** C3. With expected [1,2,3,4,5] and input [5,4,1,4,2] the differ leaves
    [3] of the expected slice and [4] of the input, and [SlicesMatch] fails
    reporting these two residues. *)
Theorem SlicesMatch_scenario :
  let expected := ints [1; 2; 3; 4; 5]%Z in
  let input := ints [5; 4; 1; 4; 2]%Z in
  nonMatchingSlices expected input = Some ([VInt 3], [VInt 4])
  ∧ SlicesMatch newTB expected input
    = Some (errorfNow newTB SlicesMatch_failureFormat
              [ArgSlice [VInt 3]; ArgSlice [VInt 4]])
  ∧ failed <$> SlicesMatch newTB expected input = Some true.
Proof. repeat split. Qed.

(** ** The sequence differ: bounds *)

Section SliceProperties.
Context {E : Type} `{GoType E}.
Implicit Types (s xs ys a b : list E) (visited : list bool) (i n : nat).

Lemma clear_makeBools visited : clear visited = makeBools (length visited).
Proof.
  unfold clear, makeBools.
  induction visited as [|v visited IH]; [done|]. csimpl. by rewrite IH.
Qed.

Lemma unclaimed_makeBools s n :
  length s ≤ n → unclaimed s (makeBools n) = s.
Proof.
  unfold makeBools. revert n.
  induction s as [|e s IH]; intros [|n] Hlen; simpl in *; try done; try lia.
  rewrite IH by lia. done.
Qed.

(** What one scan does when the marker array covers the scanned slice:
    either no unclaimed element matches and nothing changes, or the markers
    change at one position, of an unclaimed matching element. *)
Lemma scan_spec (p : E → bool) s : ∀ visited i,
  i + length s ≤ length visited →
  (countIf p (unclaimed s (drop i visited)) = 0
   ∧ scan p s visited i = Some (visited, false))
  ∨ (∃ visited' y,
       scan p s visited i = Some (visited', true)
       ∧ p y = true ∧ y ∈ s
       ∧ length visited' = length visited
       ∧ take i visited' = take i visited
       ∧ ∀ q, countIf q (unclaimed s (drop i visited))
              = (if q y then 1 else 0)
                + countIf q (unclaimed s (drop i visited'))).
Proof.
  induction s as [|e s IH]; intros visited i Hlen; simpl in Hlen.
  { left. done. }
  destruct (lookup_lt_is_Some_2 visited i) as [v Hv]; [lia|].
  simpl scan. rewrite Hv, (drop_S _ _ _ Hv). simpl unclaimed.
  destruct (negb v && p e) eqn:Hhit.
  - apply andb_true_iff in Hhit as [Hv' Hpe]. destruct v; [done|].
    right. exists (<[i:=true]> visited), e.
    assert (Hi : i < length visited) by lia.
    split_and!; [done|done|by left|by rewrite length_insert| |].
    + by rewrite take_insert_ge.
    + intros q.
      rewrite (drop_S (<[i:=true]> visited) true i)
        by by apply list_lookup_insert_eq.
      rewrite drop_insert_lt by lia. done.
  - destruct (IH visited (S i)) as
      [[Hc Hs]|(visited' & y & Hs & Hp & Hy & Hl & Ht & Hq)]; [lia| |].
    + left. split; [|done].
      destruct v; [done|]. simpl in *. by rewrite Hhit, Hc.
    + right. exists visited', y.
      assert (Hv2 : visited' !! i = Some v).
      { rewrite <- (lookup_take_lt visited' (S i) i) by lia.
        rewrite Ht, lookup_take_lt by lia. done. }
      split_and!; [done|done|by right|done| |].
      * apply (f_equal (take i)) in Ht. rewrite !take_take in Ht.
        by replace (i `min` S i) with i in Ht by lia.
      * intros q. rewrite (drop_S _ _ _ Hv2). simpl.
        destruct v; simpl; rewrite Hq; lia.
Qed.

Lemma scan_in_bounds (p : E → bool) s visited :
  length s ≤ length visited →
  ∃ visited' found,
    scan p s visited 0 = Some (visited', found)
    ∧ length visited' = length visited.
Proof.
  intros Hlen.
  destruct (scan_spec p s visited 0) as
    [[_ Hs]|(visited' & y & Hs & _ & _ & Hl & _)]; [simpl; lia| |]; eauto.
Qed.

Lemma differ_in_bounds (eq : E → E → bool) xs ys : ∀ visited nonMatched,
  length ys ≤ length visited →
  ∃ visited' residue,
    differ eq xs ys visited nonMatched = Some (visited', residue)
    ∧ length visited' = length visited.
Proof.
  induction xs as [|x xs IH]; intros visited nonMatched Hlen; simpl.
  { eauto. }
  destruct (scan_in_bounds (eq x) ys visited Hlen) as (visited' & found & -> & Hl).
  destruct (IH visited' (if negb found then nonMatched ++ [x] else nonMatched)%list)
    as (visited'' & residue & -> & Hl'); [lia|].
  exists visited'', residue. split; [done|lia].
Qed.

(** With no more elements in [b] than in [a], every [visited[i]] of
    [nonMatchingSlices a b] is in bounds. *)
Lemma nonMatchingSlices_in_bounds a b :
  length b ≤ length a → is_Some (nonMatchingSlices a b).
Proof.
  intros Hlen. unfold nonMatchingSlices.
  destruct (differ_in_bounds (λ x y, DeepEqual x y) a b (makeBools (length a)) [])
    as (visited & rA & -> & Hl); [unfold makeBools; by rewrite length_replicate|].
  unfold makeBools in Hl. rewrite length_replicate in Hl. simpl.
  destruct (differ_in_bounds (λ y x, DeepEqual x y) b a (clear visited) [])
    as (visited' & rB & -> & _).
  { rewrite clear_makeBools. unfold makeBools. rewrite length_replicate. lia. }
  simpl. eauto.
Qed.

Lemma SlicesMatch_in_bounds (tb : TB sliceArg) a b :
  is_Some (SlicesMatch tb a b).
Proof.
  unfold SlicesMatch, SlicesMatchWith.
  destruct (Nat.eqb_spec (length a) (length b)) as [Hlen|Hlen]; simpl; [|eauto].
  destruct (nonMatchingSlices_in_bounds a b) as [[rA rB] ->]; [lia|]. simpl.
  destruct (_ || _); eauto.
Qed.

End SliceProperties.

(** C10. The marker array of [nonMatchingSlices a b] has [len(a)] entries;
    the first pass reads it at positions of [b], the second at positions of
    [a]. With [len(a) = len(b)] no read is out of bounds; without that
    precondition one can be, as for [a = [1]] and [b = [2, 3]]. [SlicesMatch]
    compares the lengths before it calls the differ, and so never panics. *)
Theorem SlicesMatch_never_out_of_bounds {E} `{GoType E} (a b : list E)
  (Hlen : length a = length b) :
  length (makeBools (length a)) = length a
  ∧ is_Some (nonMatchingSlices a b)
  ∧ nonMatchingSlices (ints [1]%Z) (ints [2; 3]%Z) = None
  ∧ ∀ (tb : TB sliceArg) (expected input : list E),
      is_Some (SlicesMatch tb expected input).
Proof.
  split_and!.
  - unfold makeBools. apply length_replicate.
  - apply nonMatchingSlices_in_bounds. lia.
  - reflexivity.
  - intros tb expected input. apply SlicesMatch_in_bounds.
Qed.

(** Two slices of five elements. *)
Lemma SlicesMatch_never_out_of_bounds_witness :
  length (makeBools 5) = 5
  ∧ is_Some (nonMatchingSlices (ints [1; 2; 3; 4; 5]%Z) (ints [5; 4; 1; 4; 2]%Z))
  ∧ nonMatchingSlices (ints [1]%Z) (ints [2; 3]%Z) = None
  ∧ ∀ (tb : TB sliceArg) (expected input : list value),
      is_Some (SlicesMatch tb expected input).
Proof.
  apply (SlicesMatch_never_out_of_bounds
           (ints [1; 2; 3; 4; 5]%Z) (ints [5; 4; 1; 4; 2]%Z)).
  reflexivity.
Defined.

(** ** The sequence differ: matching *)

Section SliceMatching.
Context {E : Type} `{GoType E}.
Implicit Types (s xs ys a b : list E) (visited : list bool) (i n : nat).

Lemma scan_ext (p q : E → bool) s : ∀ visited i,
  (∀ e, e ∈ s → p e = q e) → scan p s visited i = scan q s visited i.
Proof.
  induction s as [|e s IH]; intros visited i Hpq; simpl; [done|].
  rewrite (Hpq e) by by left.
  destruct (visited !! i) as [v|]; [|done].
  destruct (negb v && q e); [done|].
  apply IH. intros e' He'. apply Hpq. by right.
Qed.

Lemma differ_ext (eq1 eq2 : E → E → bool) xs ys : ∀ visited nonMatched,
  (∀ x y, x ∈ xs → y ∈ ys → eq1 x y = eq2 x y) →
  differ eq1 xs ys visited nonMatched = differ eq2 xs ys visited nonMatched.
Proof.
  induction xs as [|x xs IH]; intros visited nonMatched Heq; simpl; [done|].
  rewrite (scan_ext (eq1 x) (eq2 x)) by (intros e He; apply Heq; [by left|done]).
  destruct (scan (eq2 x) ys visited 0) as [[visited' found]|]; [|done].
  apply IH. intros x' y Hx' Hy. apply Heq; [by right|done].
Qed.

Lemma countIf_Permutation (p : E → bool) xs ys :
  xs ≡ₚ ys → countIf p xs = countIf p ys.
Proof. induction 1; simpl; lia. Qed.

Lemma equivalenceOn_flip (C : E → Prop) (eq : E → E → bool) :
  equivalenceOn C eq → equivalenceOn C (λ x y, eq y x).
Proof.
  intros [Hr Hs Ht]. split; eauto.
Qed.

Lemma equivalenceOn_class (C : E → Prop) (eq : E → E → bool) c x y :
  equivalenceOn C eq → C c → C x → C y → eq x y = true → eq c x = eq c y.
Proof.
  intros [Hr Hs Ht] Hc Hx Hy Hxy.
  destruct (eq c x) eqn:Hcx, (eq c y) eqn:Hcy; try done.
  - rewrite (Ht c x y) in Hcy; done.
  - rewrite (Ht c y x) in Hcx; auto.
Qed.

(** The greedy pass leaves no residue when, class by class, the unclaimed
    elements of [ys] are at least as many as the elements of [xs]. *)
Lemma differ_all_matched (C : E → Prop) (eq : E → E → bool) xs ys :
  equivalenceOn C eq →
  (∀ y, y ∈ ys → C y) →
  ∀ visited nonMatched,
  (∀ x, x ∈ xs → C x) →
  length ys ≤ length visited →
  (∀ c, C c → countIf (eq c) xs ≤ countIf (eq c) (unclaimed ys visited)) →
  ∃ visited',
    differ eq xs ys visited nonMatched = Some (visited', nonMatched)
    ∧ length visited' = length visited.
Proof.
  intros Heq Hys.
  induction xs as [|x xs IH]; intros visited nonMatched Hxs Hlen Hcount; simpl.
  { eauto. }
  assert (Hx : C x) by (apply Hxs; by left).
  destruct (scan_spec (eq x) ys visited 0) as
    [[Hc _]|(visited' & y & -> & Hp & Hy & Hl & _ & Hq)]; [simpl; lia| |].
  - specialize (Hcount x Hx). rewrite drop_0 in Hc. simpl in Hcount.
    rewrite (eq_refl_on _ _ Heq x Hx), Hc in Hcount. lia.
  - simpl. destruct (IH visited' nonMatched) as (visited'' & -> & Hl').
    + intros x' Hx'. apply Hxs. by right.
    + lia.
    + intros c Hc. specialize (Hcount c Hc). specialize (Hq (eq c)).
      rewrite !drop_0 in Hq. simpl in Hcount.
      rewrite (equivalenceOn_class C eq c x y) in Hcount by auto.
      lia.
    + exists visited''. split; [done|lia].
Qed.

(** Both residues of two slices that are permutations of each other are
    empty, when deep equality is an equivalence on their elements. *)
Lemma nonMatchingSlices_Permutation a b :
  a ≡ₚ b →
  equivalenceOn (λ x, x ∈ a) DeepEqual →
  nonMatchingSlices a b = Some ([], []).
Proof.
  intros Hperm Heq. unfold nonMatchingSlices.
  assert (Hlen : length a = length b) by by apply Permutation_length.
  assert (Hb : ∀ y, y ∈ b → y ∈ a) by (intros y; by rewrite Hperm).
  destruct (differ_all_matched (λ x, x ∈ a) (λ x y, DeepEqual x y) a b Heq Hb
              (makeBools (length a)) []) as (visited & -> & Hl).
  - done.
  - unfold makeBools. rewrite length_replicate. lia.
  - intros c _. rewrite unclaimed_makeBools by lia.
    by rewrite (countIf_Permutation _ a b).
  - simpl. unfold makeBools in Hl. rewrite length_replicate in Hl.
    destruct (differ_all_matched (λ x, x ∈ a) (λ y x, DeepEqual x y) b a
                (equivalenceOn_flip _ _ Heq) (λ x Hx, Hx)
                (clear visited) []) as (visited' & -> & _).
    + done.
    + rewrite clear_makeBools. unfold makeBools. rewrite length_replicate. lia.
    + intros c _. rewrite clear_makeBools, unclaimed_makeBools by lia.
      by rewrite (countIf_Permutation _ a b).
    + done.
Qed.

End SliceMatching.

(** C4, counterexample: the one-element slice [[NaN]] is a permutation of
    itself and [SlicesMatch] fails on it. *)
Lemma SlicesMatch_permutation_fails_on_NaN :
  ¬ (∀ (tb : TB sliceArg) (a b : list value),
       a ≡ₚ b → SlicesMatch tb a b = Some tb).
Proof.
  intros Hall. specialize (Hall newTB [NaN] [NaN] (reflexivity _)).
  discriminate Hall.
Qed.

(** C4, amended. When deep equality is an equivalence on the elements of [a]
    (each of them is deeply equal to itself, which excludes NaN), [SlicesMatch]
    passes on [a] and any permutation of [a], duplicates included: both
    residues of the greedy matching are empty. *)
Theorem SlicesMatch_permutation {E} `{GoType E} (tb : TB sliceArg) (a b : list E)
  (Hperm : a ≡ₚ b) (Hequiv : equivalenceOn (λ x, x ∈ a) DeepEqual) :
  nonMatchingSlices a b = Some ([], []) ∧ SlicesMatch tb a b = Some tb.
Proof.
  pose proof (nonMatchingSlices_Permutation a b Hperm Hequiv) as Hdiff.
  split; [done|].
  unfold SlicesMatch, SlicesMatchWith.
  rewrite (Permutation_length Hperm), Nat.eqb_refl, Hdiff. done.
Qed.

Lemma int_equivalence (C : Z → Prop) : equivalenceOn C DeepEqual.
Proof.
  split; simpl.
  - intros x _. apply Z.eqb_refl.
  - intros x y _ _. rewrite !Z.eqb_eq. done.
  - intros x y z _ _ _. rewrite !Z.eqb_eq. congruence.
Qed.

Lemma permutation_with_duplicates : [1; 2; 2; 3]%Z ≡ₚ [2; 3; 1; 2]%Z.
Proof. solve_Permutation. Qed.

(** A slice of ints with a duplicate and a reordering of it. *)
Lemma SlicesMatch_permutation_witness :
  nonMatchingSlices [1; 2; 2; 3]%Z [2; 3; 1; 2]%Z = Some ([], [])
  ∧ SlicesMatch newTB [1; 2; 2; 3]%Z [2; 3; 1; 2]%Z = Some newTB.
Proof.
  exact (SlicesMatch_permutation newTB [1; 2; 2; 3]%Z [2; 3; 1; 2]%Z
           permutation_with_duplicates (int_equivalence _)).
Defined.

(** ** Swapping the arguments of the sequence differ *)

Section SliceSymmetry.
Context {E : Type} `{GoType E}.
Implicit Types (a b : list E).

Lemma nonMatchingSlices_swap a b :
  length a = length b →
  (∀ x y, x ∈ a → y ∈ b → DeepEqual x y = DeepEqual y x) →
  nonMatchingSlices b a = (λ r, (r.2, r.1)) <$> nonMatchingSlices a b.
Proof.
  intros Hlen Hsym.
  set (direct := λ x y : E, DeepEqual x y).
  set (flipped := λ y x : E, DeepEqual x y).
  assert (Hdf : ∀ v acc, differ direct b a v acc = differ flipped b a v acc).
  { intros v acc. apply differ_ext. intros y x Hy Hx. symmetry. by apply Hsym. }
  assert (Hfd : ∀ v acc, differ flipped a b v acc = differ direct a b v acc).
  { intros v acc. apply differ_ext. intros x y Hx Hy. symmetry. by apply Hsym. }
  assert (Hn : length (makeBools (length a)) = length a)
    by (unfold makeBools; apply length_replicate).
  destruct (differ_in_bounds direct a b (makeBools (length a)) [])
    as (v1 & rA & Hp1 & Hl1); [lia|].
  destruct (differ_in_bounds flipped b a (makeBools (length a)) [])
    as (v2 & rB & Hp2 & Hl2); [lia|].
  rewrite Hn in Hl1, Hl2.
  unfold nonMatchingSlices. fold direct flipped.
  rewrite Hdf, <- Hlen, Hp2, Hp1. simpl.
  rewrite !clear_makeBools, Hl1, Hl2, Hfd, Hp1, Hp2. done.
Qed.

Lemma SlicesMatch_swap (tb : TB sliceArg) a b :
  (∀ x y : E, DeepEqual x y = DeepEqual y x) →
  failed <$> SlicesMatch tb a b = failed <$> SlicesMatch tb b a.
Proof.
  intros Hsym. unfold SlicesMatch, SlicesMatchWith.
  rewrite (Nat.eqb_sym (length b) (length a)).
  destruct (Nat.eqb_spec (length a) (length b)) as [Hlen|Hlen]; simpl; [|done].
  rewrite (nonMatchingSlices_swap a b) by auto.
  destruct (nonMatchingSlices_in_bounds a b) as [[rA rB] ->]; [lia|]. simpl.
  rewrite (orb_comm (0 <? length rB)).
  by destruct (_ || _).
Qed.

End SliceSymmetry.

(** ** The mapping differ *)

Section MapProperties.
Context {K : Type} `{Countable K} {U : Type} {E : Type} `{GoType E}.
Implicit Types (a b : gomap K U E) (m : gmap K E) (k : K)
  (l : list (U * E)) (o : mapObject K U E).

Lemma found_empty : found (∅ : mapObject K U E) = ∅.
Proof. done. Qed.

Lemma lost_empty : lost (∅ : mapObject K U E) = [].
Proof. done. Qed.

Lemma mapObject_eq o1 o2 :
  found o1 = found o2 → lost o1 = lost o2 → o1 = o2.
Proof. destruct o1, o2. simpl. by intros -> ->. Qed.

(** The first loop on the entries that can be found, entry by entry. *)
Lemma compareEntry_lookup b m :
  let out := map_fold (λ k v s, compareEntry b (Key k) v s) (∅, ∅) m in
  lost out.1 = [] ∧ lost out.2 = []
  ∧ ∀ k, found out.1 !! k = residueA (m !! k) (entries b !! k)
         ∧ found out.2 !! k = match m !! k with
                              | Some _ => residueB (m !! k) (entries b !! k)
                              | None => None
                              end.
Proof.
  simpl.
  apply (map_fold_weak_ind
    (λ out m,
       lost out.1 = [] ∧ lost out.2 = []
       ∧ ∀ k, found out.1 !! k = residueA (m !! k) (entries b !! k)
              ∧ found out.2 !! k
                = match m !! k with
                  | Some _ => residueB (m !! k) (entries b !! k)
                  | None => None
                  end)).
  { split_and!; [done|done|]. intros k. simpl. by rewrite !lookup_empty. }
  intros i x m' [aout bout] Hfresh (Hla & Hlb & IH).
  cbn [fst snd] in *. unfold compareEntry, index.
  split_and!.
  - destruct (entries b !! i) as [y|]; simpl;
      [destruct (DeepEqual x y)|destruct (DeepEqual x zero)]; done.
  - destruct (entries b !! i) as [y|]; simpl;
      [destruct (DeepEqual x y)|destruct (DeepEqual x zero)]; done.
  - intros k. destruct (IH i) as [IHa IHb].
    rewrite Hfresh in IHa, IHb. simpl in IHa, IHb.
    destruct (decide (i = k)) as [<-|Hne].
    + rewrite lookup_insert_eq. simpl.
      destruct (entries b !! i) as [y|]; simpl;
        [destruct (DeepEqual x y)|destruct (DeepEqual x zero)]; simpl;
        by rewrite ?lookup_insert_eq.
    + rewrite (lookup_insert_ne m') by done. destruct (IH k) as [IHa' IHb'].
      destruct (entries b !! i) as [y|]; simpl;
        [destruct (DeepEqual x y)|destruct (DeepEqual x zero)]; simpl;
        by rewrite ?lookup_insert_ne.
Qed.

(** The first loop on the entries under NaN keys. *)
Lemma compareEntry_nan b l : ∀ out : mapObject K U E * mapObject K U E,
  let out' := foldl (λ s e, compareEntry b (NaNKey e.1) e.2 s) out l in
  found out'.1 = found out.1 ∧ found out'.2 = found out.2
  ∧ lost out'.1 = lost out.1 ++ nanResidueA l
  ∧ lost out'.2 = lost out.2 ++ nanResidueB l.
Proof.
  induction l as [|[u v] l IH]; intros [aout bout].
  { simpl. by rewrite !app_nil_r. }
  cbv zeta. cbn [foldl fst snd].
  destruct (IH (compareEntry b (NaNKey u) v (aout, bout))) as (Hfa & Hfb & Hla & Hlb).
  rewrite Hfa, Hfb, Hla, Hlb. unfold compareEntry, nanResidueA, nanResidueB. simpl.
  destruct (DeepEqual v zero); simpl; by rewrite <- ?app_assoc.
Qed.

(** The second loop on the entries that can be found, entry by entry. *)
Lemma addMissing_lookup a o m :
  let bout := map_fold (λ k v s, addMissing a (Key k) v s) o m in
  lost bout = lost o
  ∧ ∀ k, found bout !! k
         = match entries a !! k, m !! k with
           | None, Some bv => Some bv
           | _, _ => found o !! k
           end.
Proof.
  simpl.
  apply (map_fold_weak_ind
    (λ bout m,
       lost bout = lost o
       ∧ ∀ k, found bout !! k
              = match entries a !! k, m !! k with
                | None, Some bv => Some bv
                | _, _ => found o !! k
                end)).
  { split; [done|]. intros k. rewrite lookup_empty. by destruct (entries a !! k). }
  intros i x m' bout Hfresh [Hl IH]. unfold addMissing, index. split.
  - by destruct (entries a !! i).
  - intros k. destruct (decide (i = k)) as [<-|Hne].
    + rewrite lookup_insert_eq. specialize (IH i). rewrite Hfresh in IH.
      destruct (entries a !! i); simpl; [done|]. by rewrite lookup_insert_eq.
    + rewrite (lookup_insert_ne m') by done. specialize (IH k).
      destruct (entries a !! i); simpl; [done|]. by rewrite lookup_insert_ne.
Qed.

(** The second loop on the entries under NaN keys. *)
Lemma addMissing_nan a l : ∀ o,
  let bout := foldl (λ s e, addMissing a (NaNKey e.1) e.2 s) o l in
  found bout = found o ∧ lost bout = lost o ++ l.
Proof.
  induction l as [|[u v] l IH]; intros o.
  { simpl. by rewrite app_nil_r. }
  cbv zeta. cbn [foldl fst snd].
  destruct (IH (addMissing a (NaNKey u) v o)) as [-> ->].
  unfold addMissing. simpl. by rewrite <- app_assoc.
Qed.

(** Both residues of [nonMatchingMaps]: key by key under the keys that can
    be found, and the entries under NaN keys. *)
Lemma nonMatchingMaps_lookup a b :
  ∃ aout bout : mapObject K U E,
    nonMatchingMaps a b = (Some aout, Some bout)
    ∧ lost aout = nanResidueA (nanEntries a)
    ∧ lost bout = nanResidueB (nanEntries a) ++ nanEntries b
    ∧ ∀ k, found aout !! k = residueA (entries a !! k) (entries b !! k)
           ∧ found bout !! k = residueB (entries a !! k) (entries b !! k).
Proof.
  unfold nonMatchingMaps, range.
  pose proof (compareEntry_lookup b (entries a)) as Hfirst. cbv zeta in Hfirst.
  pose proof (compareEntry_nan b (nanEntries a)
    (map_fold (λ k v s, compareEntry b (Key k) v s) (∅, ∅) (entries a))) as Hnan.
  cbv zeta in Hnan.
  destruct (foldl _ _ (nanEntries a)) as [aout bout].
  destruct (map_fold _ (∅, ∅) (entries a)) as [aout0 bout0].
  cbn [fst snd] in *.
  destruct Hfirst as (Hla0 & Hlb0 & Hfirst).
  destruct Hnan as (Hfa & Hfb & Hla & Hlb).
  pose proof (addMissing_lookup a bout (entries b)) as Hsecond. cbv zeta in Hsecond.
  pose proof (addMissing_nan a (nanEntries b)
    (map_fold (λ k v s, addMissing a (Key k) v s) bout (entries b))) as Hnan2.
  cbv zeta in Hnan2.
  destruct Hsecond as [Hl2 Hsecond]. destruct Hnan2 as [Hf3 Hl3].
  eexists _, _. split; [done|]. split_and!.
  - by rewrite Hla, Hla0.
  - by rewrite Hl3, Hl2, Hlb, Hlb0.
  - intros k. destruct (Hfirst k) as [Ha Hb]. rewrite Hfa. split; [done|].
    rewrite Hf3, Hsecond, Hfb. revert Hb.
    destruct (entries a !! k), (entries b !! k); simpl; intros Hb;
      by rewrite ?Hb.
Qed.

Lemma len_zero_iff o : (0 <? len (Some o)) = false ↔ o = ∅.
Proof.
  unfold len, entries, nanEntries. simpl. rewrite Nat.ltb_ge. split.
  - intros Hz. apply mapObject_eq; simpl.
    + apply map_size_empty_iff. lia.
    + apply length_zero_iff_nil. lia.
  - by intros ->.
Qed.

(** [MapsMatch] passes or fails with the two residues; it passes exactly when
    both are empty. *)
Lemma MapsMatch_cases (tb : TB (gomap K U E)) a b :
  (nonMatchingMaps a b = (Some ∅, Some ∅) ∧ MapsMatch tb a b = tb)
  ∨ (nonMatchingMaps a b ≠ (Some ∅, Some ∅)
     ∧ MapsMatch tb a b
       = errorfNow tb MapsMatch_failureFormat
           [(nonMatchingMaps a b).1; (nonMatchingMaps a b).2]).
Proof.
  unfold MapsMatch.
  destruct (nonMatchingMaps_lookup a b) as (aout & bout & -> & _). simpl.
  destruct (0 <? len (Some aout)) eqn:Ha; simpl.
  { right. split; [|done]. intros [= -> ->]. done. }
  destruct (0 <? len (Some bout)) eqn:Hb; simpl.
  { right. split; [|done]. intros [= -> ->]. done. }
  apply len_zero_iff in Ha, Hb. subst. by left.
Qed.

Lemma MapsMatch_pass_iff (tb : TB (gomap K U E)) a b :
  MapsMatch tb a b = tb ↔ nonMatchingMaps a b = (Some ∅, Some ∅).
Proof.
  destruct (MapsMatch_cases tb a b) as [[Hd Hm]|[Hd Hm]]; rewrite Hm.
  - done.
  - split; [|done]. intros Heq. by apply errorfNow_neq in Heq.
Qed.

Lemma nanResidueA_nil l : nanResidueA l = [] ↔ l = [].
Proof.
  destruct l as [|[u v] l]; simpl; [done|].
  unfold nanResidueA. simpl. by destruct (DeepEqual v zero).
Qed.

(** The residues are empty exactly when neither map has an entry under a NaN
    key and the two maps have the same keys with deeply equal values. *)
Lemma nonMatchingMaps_empty_iff a b :
  nonMatchingMaps a b = (Some ∅, Some ∅)
  ↔ nanEntries a = [] ∧ nanEntries b = []
    ∧ ∀ k, match entries a !! k, entries b !! k with
           | Some x, Some y => DeepEqual x y = true
           | None, None => True
           | _, _ => False
           end.
Proof.
  destruct (nonMatchingMaps_lookup a b) as (aout & bout & -> & Hla & Hlb & Hk).
  split.
  - intros [= -> ->]. rewrite lost_empty in Hla, Hlb.
    symmetry in Hla, Hlb. apply (proj1 (nanResidueA_nil _)) in Hla.
    apply app_eq_nil in Hlb as [_ Hlb]. split_and!; [done|done|].
    intros k. destruct (Hk k) as [Ha Hb].
    rewrite found_empty, lookup_empty in Ha, Hb.
    destruct (entries a !! k) as [x|], (entries b !! k) as [y|]; simpl in *;
      try done.
    by destruct (DeepEqual x y).
  - intros (Hna & Hnb & Hall). rewrite Hna, Hnb in *. simpl in Hla, Hlb.
    f_equal; f_equal; apply mapObject_eq; rewrite ?lost_empty, ?found_empty;
      try done; apply map_eq;
      intros k; rewrite lookup_empty; destruct (Hk k) as [Ha Hb];
      rewrite ?Ha, ?Hb; specialize (Hall k);
      destruct (entries a !! k) as [x|], (entries b !! k) as [y|]; simpl;
      try done; by rewrite Hall.
Qed.

Lemma nonMatchingMaps_swap a b :
  nanEntries a = [] → nanEntries b = [] →
  (∀ k, is_Some (entries a !! k) ↔ is_Some (entries b !! k)) →
  (∀ x y : E, DeepEqual x y = DeepEqual y x) →
  nonMatchingMaps b a = ((nonMatchingMaps a b).2, (nonMatchingMaps a b).1).
Proof.
  intros Hna Hnb Hkeys Hsym.
  destruct (nonMatchingMaps_lookup a b) as (aout & bout & -> & Hla & Hlb & Hab).
  destruct (nonMatchingMaps_lookup b a) as (aout' & bout' & -> & Hla' & Hlb' & Hba).
  rewrite Hna, Hnb in *. simpl in *.
  f_equal; f_equal; apply mapObject_eq; try congruence; apply map_eq; intros k;
    destruct (Hab k) as [Ha Hb], (Hba k) as [Ha' Hb'];
    rewrite ?Ha, ?Hb, ?Ha', ?Hb'; specialize (Hkeys k);
    destruct (entries a !! k) as [x|] eqn:Hx, (entries b !! k) as [y|] eqn:Hy;
    simpl; rewrite ?(Hsym y x); try done;
    destruct Hkeys as [H1 H2];
    (by destruct H1 as [? [=]]; eauto) || (by destruct H2 as [? [=]]; eauto).
Qed.

Lemma nonMatchingMaps_empty_swap a b :
  (∀ x y : E, DeepEqual x y = DeepEqual y x) →
  nonMatchingMaps a b = (Some ∅, Some ∅)
  ↔ nonMatchingMaps b a = (Some ∅, Some ∅).
Proof.
  intros Hsym. rewrite !nonMatchingMaps_empty_iff.
  split; intros (Hn1 & Hn2 & Hall); (split_and!; [done|done|]);
    intros k; specialize (Hall k);
    destruct (entries a !! k), (entries b !! k); try done;
    by rewrite Hsym.
Qed.

Lemma MapsMatch_swap (tb : TB (gomap K U E)) a b :
  (∀ x y : E, DeepEqual x y = DeepEqual y x) →
  failed (MapsMatch tb a b) = failed (MapsMatch tb b a).
Proof.
  intros Hsym. pose proof (nonMatchingMaps_empty_swap a b Hsym) as Hiff.
  destruct (MapsMatch_cases tb a b) as [[Hd ->]|[Hd ->]],
    (MapsMatch_cases tb b a) as [[Hd' ->]|[Hd' ->]]; try done.
  - by apply Hiff in Hd.
  - by apply Hiff in Hd'.
Qed.

End MapProperties.

(** What the first loop leaves in the second residue for a key that [b]
    lacks: nothing when the value of [a] is deeply equal to the zero value,
    and otherwise an entry holding the zero value. *)
Lemma nonMatchingMaps_absent_key {K} `{Countable K} {U E} `{GoType E}
  (a b : gomap K U E) (k : K) (av : E) :
  entries a !! k = Some av → entries b !! k = None →
  ∃ aout bout : mapObject K U E,
    nonMatchingMaps a b = (Some aout, Some bout)
    ∧ found aout !! k = Some av
    ∧ found bout !! k = if DeepEqual av zero then None else Some zero.
Proof.
  intros Ha Hb.
  destruct (nonMatchingMaps_lookup a b) as (aout & bout & Hd & _ & _ & Hk).
  exists aout, bout. destruct (Hk k) as [-> ->]. by rewrite Ha, Hb.
Qed.

(** The residues of [{"a": 1}] against [{}], of type [map[string]int]. *)
Lemma nonMatchingMaps_one_key_against_empty :
  nonMatchingMaps
    (Some (mkMap {["a"%string := 1%Z]} []) : gomap string Empty_set Z)
    (Some (mkMap ∅ []))
  = (Some (mkMap {["a"%string := 1%Z]} []),
     Some (mkMap {["a"%string := 0%Z]} [])).
Proof.
  destruct (nonMatchingMaps_lookup
              (Some (mkMap {["a"%string := 1%Z]} []) : gomap string Empty_set Z)
              (Some (mkMap ∅ [])))
    as (aout & bout & -> & Hla & Hlb & Hk).
  f_equal; f_equal; apply mapObject_eq; simpl; try done;
    apply map_eq; intros k; destruct (Hk k) as [Ha Hb];
    rewrite ?Ha, ?Hb; simpl; rewrite lookup_empty;
    (destruct (decide (k = "a"%string)) as [->|Hne];
      [by rewrite !lookup_singleton_eq | by rewrite !lookup_singleton_ne]).
Qed.

(** C1, at the maps [{"a": 1}] and [{}] of type [map[string]int]: the first
    residue receives ["a": 1], and the second residue receives the entry
    ["a": 0] although the second map has no key ["a"]. *)
Theorem nonMatchingMaps_zero_entry :
  let a : gomap string Empty_set Z := Some (mkMap {["a"%string := 1%Z]} []) in
  let b : gomap string Empty_set Z := Some (mkMap ∅ []) in
  entries b !! "a"%string = None
  ∧ nonMatchingMaps a b
    = (Some (mkMap {["a"%string := 1%Z]} []),
       Some (mkMap {["a"%string := 0%Z]} [])).
Proof.
  cbv zeta. split.
  - simpl. by rewrite lookup_empty.
  - apply nonMatchingMaps_one_key_against_empty.
Qed.

(** ** Deep equality is symmetric *)

Lemma floatEq_sym (x y : spec_float) : floatEq x y = floatEq y x.
Proof.
  unfold floatEq, SFeqb.
  destruct x as [s1|s1| |s1 m1 e1], y as [s2|s2| |s2 m2 e2]; simpl; try done;
    try (by destruct s1, s2).
  assert (Hm : Pos.compare_cont Eq m2 m1 = CompOpp (Pos.compare_cont Eq m1 m2))
    by (symmetry; apply (Pos.compare_cont_antisym m1 m2 Eq)).
  destruct s1, s2; try done;
    rewrite (Z.compare_antisym e1 e2), Hm;
    destruct (e1 ?= e2)%Z; simpl; try done;
    by destruct (Pos.compare_cont Eq m1 m2).
Qed.

Lemma elementsEqual_sym (l1 : list value) :
  Forall (λ x, ∀ y, deepValueEqual x y = deepValueEqual y x) l1 →
  ∀ l2, elementsEqual l1 l2 = elementsEqual l2 l1.
Proof.
  induction 1 as [|x l1 Hx _ IH]; intros [|y l2]; simpl; try done.
  by rewrite Hx, IH.
Qed.

Lemma deepValueEqual_sym : ∀ x y, deepValueEqual x y = deepValueEqual y x.
Proof.
  fix IH 1. intros x.
  destruct x as [|b|n|f|s|l|l|p l|p x|c];
    intros [|b'|n'|f'|s'|l'|l'|p' l'|p' x'|c']; simpl; try done.
  - by destruct b, b'.
  - apply Z.eqb_sym.
  - apply floatEq_sym.
  - apply String.eqb_sym.
  - apply (elementsEqual_sym l). induction l as [|x l IHl]; constructor; auto.
  - apply (elementsEqual_sym l). induction l as [|x l IHl]; constructor; auto.
  - rewrite (Nat.eqb_sym (length l')), (N.eqb_sym p').
    destruct (length l =? length l')%nat; simpl; [|done].
    destruct (p =? p')%N; [done|].
    apply (elementsEqual_sym l). induction l as [|x l IHl]; constructor; auto.
  - rewrite (N.eqb_sym p'). destruct (p =? p')%N; [done|]. apply IH.
Qed.

(** ** Swapping expected and actual *)

(** The residues of [map[float64]int{NaN: 1}] against itself: the key is
    not found in the map it comes from, each loop stores its entry anew. *)
Lemma nonMatchingMaps_NaN_key_against_itself :
  let m : gomap Z unit Z := Some (mkMap ∅ [((), 1%Z)]) in
  nonMatchingMaps m m
  = (Some (mkMap ∅ [((), 1%Z); ((), 1%Z)]),
     Some (mkMap ∅ [((), 0%Z); ((), 1%Z)])).
Proof. reflexivity. Qed.

(** C2, counterexample: the residues are not swapped for the slices [[1]] and
    [[2, 3]], where one order panics and the other does not, nor for the maps
    [{"a": 1}] and [{}], nor for the map [{NaN: 1}] and itself. *)
Lemma residues_not_swapped :
  ¬ (∀ (a b rA rB : list value),
       nonMatchingSlices a b = Some (rA, rB)
       ↔ nonMatchingSlices b a = Some (rB, rA))
  ∧ ¬ (∀ (a b rA rB : gomap string Empty_set Z),
         nonMatchingMaps a b = (rA, rB) ↔ nonMatchingMaps b a = (rB, rA))
  ∧ ¬ (∀ (a b rA rB : gomap Z unit Z),
         (∀ k, is_Some (entries a !! k) ↔ is_Some (entries b !! k)) →
         nanEntries a = nanEntries b →
         nonMatchingMaps a b = (rA, rB) ↔ nonMatchingMaps b a = (rB, rA)).
Proof.
  split_and!.
  - intros Hall.
    destruct (Hall (ints [1]%Z) (ints [2; 3]%Z) (ints [1]%Z) (ints [2; 3]%Z))
      as [_ Hback].
    discriminate Hback. reflexivity.
  - intros Hall.
    destruct (Hall (Some (mkMap {["a"%string := 1%Z]} [])) (Some (mkMap ∅ []))
                (Some (mkMap {["a"%string := 1%Z]} []))
                (Some (mkMap {["a"%string := 0%Z]} [])))
      as [Hswap _].
    specialize (Hswap nonMatchingMaps_one_key_against_empty).
    destruct (nonMatchingMaps_lookup
                (Some (mkMap ∅ []) : gomap string Empty_set Z)
                (Some (mkMap {["a"%string := 1%Z]} [])))
      as (aout & bout & Hd & _ & _ & Hk).
    rewrite Hd in Hswap. injection Hswap as -> ->.
    destruct (Hk "a"%string) as [Ha _]. simpl in Ha.
    by rewrite lookup_singleton_eq, lookup_empty in Ha.
  - intros Hall.
    destruct (Hall (Some (mkMap ∅ [((), 1%Z)])) (Some (mkMap ∅ [((), 1%Z)]))
                (Some (mkMap ∅ [((), 1%Z); ((), 1%Z)]))
                (Some (mkMap ∅ [((), 0%Z); ((), 1%Z)])))
      as [Hswap _]; [done|done|].
    specialize (Hswap nonMatchingMaps_NaN_key_against_itself).
    rewrite nonMatchingMaps_NaN_key_against_itself in Hswap.
    discriminate Hswap.
Qed.

Lemma SlicesMatch_pass_swap {E} `{GoType E} (tb : TB sliceArg) (a b : list E) :
  (∀ x y : E, DeepEqual x y = DeepEqual y x) →
  SlicesMatch tb a b = Some tb ↔ SlicesMatch tb b a = Some tb.
Proof.
  intros Hsym. unfold SlicesMatch, SlicesMatchWith.
  rewrite (Nat.eqb_sym (length b) (length a)).
  destruct (Nat.eqb_spec (length a) (length b)) as [Hlen|Hlen]; simpl.
  - rewrite (nonMatchingSlices_swap a b) by auto.
    destruct (nonMatchingSlices_in_bounds a b) as [[rA rB] ->]; [lia|]. simpl.
    rewrite (orb_comm (0 <? length rB)).
    destruct (_ || _); [|done].
    split; intros [= Heq]; by apply errorfNow_neq in Heq.
  - split; intros [= Heq]; by apply errorfNow_neq in Heq.
Qed.

Lemma MapsMatch_pass_swap {K} `{Countable K} {U E} `{GoType E}
  (tb : TB (gomap K U E)) (a b : gomap K U E) :
  (∀ x y : E, DeepEqual x y = DeepEqual y x) →
  MapsMatch tb a b = tb ↔ MapsMatch tb b a = tb.
Proof.
  intros Hsym. rewrite !MapsMatch_pass_iff. by apply nonMatchingMaps_empty_swap.
Qed.

(** C2, amended. Deep equality being symmetric: for slices of equal length
    (the only ones [SlicesMatch] passes to the differ) and for maps with the
    same keys, none of them a NaN key, swapping the arguments swaps the
    residues; and for all slices and all maps [SlicesMatch] and [MapsMatch]
    pass in one order exactly when they pass in the other. *)
Theorem residues_swapped {K} `{Countable K} {U E} `{GoType E}
  (a b : list E) (ma mb : gomap K U E)
  (Hsym : ∀ x y : E, DeepEqual x y = DeepEqual y x)
  (Hlen : length a = length b)
  (Hkeys : ∀ k, is_Some (entries ma !! k) ↔ is_Some (entries mb !! k))
  (Hnan : nanEntries ma = [] ∧ nanEntries mb = []) :
  (∀ rA rB, nonMatchingSlices a b = Some (rA, rB)
            ↔ nonMatchingSlices b a = Some (rB, rA))
  ∧ (∀ rA rB, nonMatchingMaps ma mb = (rA, rB)
              ↔ nonMatchingMaps mb ma = (rB, rA))
  ∧ (∀ (tb : TB sliceArg) (s t : list E),
       SlicesMatch tb s t = Some tb ↔ SlicesMatch tb t s = Some tb)
  ∧ (∀ (tb : TB (gomap K U E)) (m n : gomap K U E),
       MapsMatch tb m n = tb ↔ MapsMatch tb n m = tb).
Proof.
  destruct Hnan as [Hna Hnb]. split_and!.
  - intros rA rB. rewrite (nonMatchingSlices_swap a b) by auto.
    destruct (nonMatchingSlices a b) as [[rA' rB']|]; simpl; naive_solver.
  - intros rA rB. rewrite (nonMatchingMaps_swap ma mb) by auto.
    destruct (nonMatchingMaps ma mb) as [rA' rB']; simpl; naive_solver.
  - intros tb s t. by apply SlicesMatch_pass_swap.
  - intros tb m n. by apply MapsMatch_pass_swap.
Qed.

Lemma same_keys_example (k : string) :
  is_Some (entries (Some (mkMap {["x"%string := VInt 1]} [])
                    : gomap string Empty_set value) !! k)
  ↔ is_Some (entries (Some (mkMap {["x"%string := VInt 2]} [])
                      : gomap string Empty_set value) !! k).
Proof.
  simpl. destruct (decide (k = "x"%string)) as [->|Hne].
  - rewrite !lookup_singleton_eq. split; eauto.
  - by rewrite !lookup_singleton_ne.
Qed.

(** Two slices of type [[]any] with five elements, two maps of type
    [map[string]any] with the key ["x"]. *)
Lemma residues_swapped_witness :
  let a := ints [1; 2; 3; 4; 5]%Z in
  let b := ints [5; 4; 1; 4; 2]%Z in
  let ma : gomap string Empty_set value := Some (mkMap {["x"%string := VInt 1]} []) in
  let mb : gomap string Empty_set value := Some (mkMap {["x"%string := VInt 2]} []) in
  (∀ rA rB, nonMatchingSlices a b = Some (rA, rB)
            ↔ nonMatchingSlices b a = Some (rB, rA))
  ∧ (∀ rA rB, nonMatchingMaps ma mb = (rA, rB)
              ↔ nonMatchingMaps mb ma = (rB, rA))
  ∧ (∀ (tb : TB sliceArg) (s t : list value),
       SlicesMatch tb s t = Some tb ↔ SlicesMatch tb t s = Some tb)
  ∧ (∀ (tb : TB (gomap string Empty_set value)) (m n : gomap string Empty_set value),
       MapsMatch tb m n = tb ↔ MapsMatch tb n m = tb).
Proof.
  exact (residues_swapped (ints [1; 2; 3; 4; 5]%Z) (ints [5; 4; 1; 4; 2]%Z)
           (Some (mkMap {["x"%string := VInt 1]} []))
           (Some (mkMap {["x"%string := VInt 2]} []))
           deepValueEqual_sym eq_refl same_keys_example (conj eq_refl eq_refl)).
Defined.

(** ** MapsMatch on a map and itself *)

(** Two maps with empty residues have the same size. *)
Lemma nonMatchingMaps_empty_len {K} `{Countable K} {U E} `{GoType E}
  (a b : gomap K U E) :
  nonMatchingMaps a b = (Some ∅, Some ∅) → len a = len b.
Proof.
  rewrite nonMatchingMaps_empty_iff. intros (Hna & Hnb & Hall).
  unfold len. rewrite Hna, Hnb. f_equal.
  assert (Hdom : dom (entries a) =@{gset K} dom (entries b)).
  { apply set_eq. intros k. rewrite !elem_of_dom. specialize (Hall k).
    destruct (entries a !! k), (entries b !! k);
      split; intros [? ?]; eauto; done. }
  by rewrite <- (size_dom (entries a)), Hdom, size_dom.
Qed.

(** C7, counterexample: [MapsMatch] fails on the map [{"k": NaN}] and
    itself, and on the map [{NaN: 1}] and itself. *)
Lemma MapsMatch_fails_on_NaN :
  ¬ (∀ (tb : TB (gomap string Empty_set value)) (m : gomap string Empty_set value),
       MapsMatch tb m m = tb)
  ∧ ¬ (∀ (tb : TB (gomap Z unit Z)) (m : gomap Z unit Z),
         (∀ k v, entries m !! k = Some v → DeepEqual v v = true) →
         (∀ e, e ∈ nanEntries m → DeepEqual e.2 e.2 = true) →
         MapsMatch tb m m = tb).
Proof.
  split; intros Hall.
  - specialize (Hall newTB (Some (mkMap {["k"%string := NaN]} []))).
    apply MapsMatch_pass_iff in Hall.
    rewrite nonMatchingMaps_empty_iff in Hall.
    destruct Hall as (_ & _ & Hall).
    specialize (Hall "k"%string). simpl in Hall.
    rewrite lookup_singleton_eq in Hall. discriminate Hall.
  - specialize (Hall newTB (Some (mkMap ∅ [((), 1%Z)]))).
    assert (Hpass : MapsMatch newTB (Some (mkMap ∅ [((), 1%Z)]) : gomap Z unit Z)
                      (Some (mkMap ∅ [((), 1%Z)])) = newTB).
    { apply Hall.
      - intros k v. simpl. by rewrite lookup_empty.
      - intros e _. simpl. apply Z.eqb_refl. }
    apply MapsMatch_pass_iff in Hpass.
    rewrite nonMatchingMaps_empty_iff in Hpass.
    by destruct Hpass as (Hnan & _).
Qed.

(** C7, amended. [MapsMatch] passes on a map and itself when the map has no
    NaN key and every value of the map is deeply equal to itself; it passes
    on the nil map and the empty map, in either order; and no size is ever
    compared: on every pair of maps it passes when the differ leaves two
    empty residues and otherwise fails with the report of the two residues,
    also on maps of different sizes. *)
Theorem MapsMatch_reflexive {K} `{Countable K} {U E} `{GoType E}
  (tb : TB (gomap K U E)) (m : gomap K U E)
  (Hnan : nanEntries m = [])
  (Hself : ∀ k v, entries m !! k = Some v → DeepEqual v v = true) :
  MapsMatch tb m m = tb
  ∧ MapsMatch tb None (Some ∅) = tb
  ∧ MapsMatch tb (Some ∅) None = tb
  ∧ (∀ a b, MapsMatch tb a b = tb ↔ nonMatchingMaps a b = (Some ∅, Some ∅))
  ∧ (∀ a b,
       (nonMatchingMaps a b = (Some ∅, Some ∅) ∧ MapsMatch tb a b = tb)
       ∨ (nonMatchingMaps a b ≠ (Some ∅, Some ∅)
          ∧ MapsMatch tb a b
            = errorfNow tb MapsMatch_failureFormat
                [(nonMatchingMaps a b).1; (nonMatchingMaps a b).2]))
  ∧ (∀ a b, len a ≠ len b →
       MapsMatch tb a b
       = errorfNow tb MapsMatch_failureFormat
           [(nonMatchingMaps a b).1; (nonMatchingMaps a b).2]).
Proof.
  split_and!.
  - apply MapsMatch_pass_iff, nonMatchingMaps_empty_iff.
    split_and!; [done|done|]. intros k.
    destruct (entries m !! k) as [v|] eqn:Hv; [|done]. by apply (Hself k).
  - apply MapsMatch_pass_iff, nonMatchingMaps_empty_iff.
    split_and!; [done|done|]. intros k. simpl. by rewrite lookup_empty.
  - apply MapsMatch_pass_iff, nonMatchingMaps_empty_iff.
    split_and!; [done|done|]. intros k. simpl. by rewrite lookup_empty.
  - intros a b. apply MapsMatch_pass_iff.
  - intros a b. apply MapsMatch_cases.
  - intros a b Hlen. destruct (MapsMatch_cases tb a b) as [[Hd _]|[_ ->]]; [|done].
    by apply nonMatchingMaps_empty_len in Hd.
Qed.

(** The map of the test case "map equal". *)
Lemma MapsMatch_reflexive_witness :
  let tb : TB (gomap string Empty_set Z) := newTB in
  let m : gomap string Empty_set Z :=
    Some (mkMap (<["a"%string := 2%Z]> (<["b"%string := 3%Z]> {["c"%string := 255%Z]})) []) in
  MapsMatch tb m m = tb
  ∧ MapsMatch tb None (Some ∅) = tb
  ∧ MapsMatch tb (Some ∅) None = tb
  ∧ (∀ a b, MapsMatch tb a b = tb ↔ nonMatchingMaps a b = (Some ∅, Some ∅))
  ∧ (∀ a b,
       (nonMatchingMaps a b = (Some ∅, Some ∅) ∧ MapsMatch tb a b = tb)
       ∨ (nonMatchingMaps a b ≠ (Some ∅, Some ∅)
          ∧ MapsMatch tb a b
            = errorfNow tb MapsMatch_failureFormat
                [(nonMatchingMaps a b).1; (nonMatchingMaps a b).2]))
  ∧ (∀ a b, len a ≠ len b →
       MapsMatch tb a b
       = errorfNow tb MapsMatch_failureFormat
           [(nonMatchingMaps a b).1; (nonMatchingMaps a b).2]).
Proof.
  exact (MapsMatch_reflexive newTB
           (Some (mkMap (<["a"%string := 2%Z]> (<["b"%string := 3%Z]> {["c"%string := 255%Z]})) []))
           eq_refl (λ k v _, Z.eqb_refl v)).
Defined.

(** ** Equal on a value and itself *)

Lemma floatEq_self (f : spec_float) : floatEq f f = negb (isNaN f).
Proof.
  destruct f as [s|s| |s m e]; unfold floatEq, SFeqb; simpl; try done.
  - by destruct s.
  - destruct s; by rewrite Z.compare_refl, Pos.compare_cont_refl.
Qed.

Lemma elementsEqual_self (l : list value) :
  Forall (λ v, deepValueEqual v v = selfEqual v) l →
  elementsEqual l l = selfEqual (VArray l).
Proof.
  induction 1 as [|v l Hv _ IH]; simpl; [done|].
  simpl in IH. by rewrite Hv, IH.
Qed.

(** [reflect.DeepEqual(v, v)] holds exactly for the values described by
    [selfEqual]. *)
Lemma deepValueEqual_self : ∀ v, deepValueEqual v v = selfEqual v.
Proof.
  fix IH 1. intros v.
  destruct v as [|b|n|f|s|l|l|p l|p x|c]; simpl; try done.
  - by destruct b.
  - apply Z.eqb_refl.
  - apply floatEq_self.
  - apply String.eqb_refl.
  - apply (elementsEqual_self l). induction l as [|x l IHl]; constructor; auto.
  - apply (elementsEqual_self l). induction l as [|x l IHl]; constructor; auto.
  - by rewrite Nat.eqb_refl, N.eqb_refl.
  - by rewrite N.eqb_refl.
Qed.

Lemma plain_selfEqual : ∀ v, plain v = true → selfEqual v = true.
Proof.
  fix IH 1. intros v.
  destruct v as [|b|n|f|s|l|l|p l|p x|c]; simpl; try done.
  - induction l as [|x l IHl]; [done|].
    intros [Hx Hl]%andb_true_iff. by rewrite (IH x Hx), (IHl Hl).
  - induction l as [|x l IHl]; [done|].
    intros [Hx Hl]%andb_true_iff. by rewrite (IH x Hx), (IHl Hl).
Qed.

Lemma plain_no_NaN : ∀ v, plain v = true → containsNaN v = false.
Proof.
  fix IH 1. intros v.
  destruct v as [|b|n|f|s|l|l|p l|p x|c]; simpl; try done.
  - by destruct (isNaN f).
  - induction l as [|x l IHl]; [done|].
    intros [Hx Hl]%andb_true_iff. by rewrite (IH x Hx), (IHl Hl).
  - induction l as [|x l IHl]; [done|].
    intros [Hx Hl]%andb_true_iff. by rewrite (IH x Hx), (IHl Hl).
  - induction l as [|x l IHl]; [done|].
    intros [Hx Hl]%andb_true_iff. by rewrite (IH x Hx), (IHl Hl).
  - apply IH.
Qed.

(** C6, counterexample: a slice holding a NaN is equal to itself, as it is
    the same slice on both sides; a non-nil func holds no NaN and is not equal
    to itself. *)
Lemma Equal_self_not_by_NaN :
  ¬ (∀ (tb : TB value) (v : value),
       containsNaN v = true → Equal tb v v ≠ tb)
  ∧ ¬ (∀ (tb : TB value) (v : value),
         containsNaN v = false → Equal tb v v = tb).
Proof.
  split; intros Hall.
  - by apply (Hall newTB (VSlice 0 [NaN])).
  - by specialize (Hall newTB (VFunc 0) eq_refl).
Qed.

(** C6, amended. [Equal] passes on [v] and [v] exactly when [v] is neither a
    NaN nor a non-nil func nor an array or struct holding one as an element or
    field, and otherwise fails, logging the mismatch; so it passes on every
    value without NaN and func, it passes on a slice or pointer whatever it
    refers to, and it fails on a NaN. *)
Theorem Equal_self (tb : TB value) (v : value) :
  (Equal tb v v = tb ↔ selfEqual v = true)
  ∧ (Equal tb v v = errorfNow tb Equal_failureFormat [v; v]
     ↔ selfEqual v = false)
  ∧ (if plain v then Equal tb v v = tb else True)
  ∧ (∀ p l x, Equal tb (VSlice p l) (VSlice p l) = tb
              ∧ Equal tb (VPtr p x) (VPtr p x) = tb)
  ∧ Equal tb NaN NaN = errorfNow tb Equal_failureFormat [NaN; NaN].
Proof.
  assert (Hcases : ∀ w, Equal tb w w
            = if selfEqual w then tb else errorfNow tb Equal_failureFormat [w; w]).
  { intros w. unfold Equal. simpl. rewrite deepValueEqual_self.
    by destruct (selfEqual w). }
  pose proof (errorfNow_neq tb Equal_failureFormat [v; v]) as Hne.
  split_and!.
  - rewrite Hcases. destruct (selfEqual v); naive_solver.
  - rewrite Hcases. destruct (selfEqual v); naive_solver.
  - destruct (plain v) eqn:Hp; [|done].
    by rewrite Hcases, (plain_selfEqual v Hp).
  - intros p l x. by rewrite !Hcases.
  - by rewrite Hcases.
Qed.

(** * Further properties *)

(** ** NoError, Error and ErrorsMatch *)

(** X1. [NoError] passes exactly on the nil error and [Error] exactly on the
    others, so that on every error one of the two passes and the other
    fails; [NoError] logs the error it was given, [Error] logs no value. *)
Theorem NoError_Error_dual (tb : TB error) (input : error) :
  (NoError tb input = tb ↔ input = None)
  ∧ (Error tb input = tb ↔ input ≠ None)
  ∧ (NoError tb input = tb ↔ Error tb input ≠ tb)
  ∧ (NoError tb input = errorfNow tb NoError_failureFormat [input]
     ↔ input ≠ None)
  ∧ (Error tb input = errorfNow tb Error_failureFormat [] ↔ input = None).
Proof.
  pose proof (errorfNow_neq tb NoError_failureFormat [input]) as Hn.
  pose proof (errorfNow_neq tb Error_failureFormat []) as He.
  unfold NoError, Error. destruct input as [p|]; simpl; naive_solver.
Qed.




(** ** Within *)

(** X3. On integers [Within] passes exactly when [minT ≤ input ≤ maxT], both
    bounds included; it fails on every input when [maxT < minT]; a failure
    logs the two bounds and the input. *)
Theorem Within_int (tb : TB Z) (minT maxT input : Z) :
  (Within tb minT maxT input = tb ↔ (minT ≤ input ≤ maxT)%Z)
  ∧ (Within tb minT maxT input
       = errorfNow tb Within_failureFormat [minT; maxT; input]
     ↔ (input < minT ∨ maxT < input)%Z)
  ∧ ((maxT < minT)%Z → Within tb minT maxT input ≠ tb)
  ∧ ((minT ≤ maxT)%Z →
     Within tb minT maxT minT = tb ∧ Within tb minT maxT maxT = tb).
Proof.
  assert (Hcases : ∀ x, Within tb minT maxT x
            = if (x <? minT)%Z || (maxT <? x)%Z
              then errorfNow tb Within_failureFormat [minT; maxT; x] else tb)
    by done.
  assert (Hne : ∀ x, errorfNow tb Within_failureFormat [minT; maxT; x] ≠ tb)
    by (intros x; apply errorfNow_neq).
  rewrite !Hcases. split_and!.
  - destruct (Z.ltb_spec input minT), (Z.ltb_spec maxT input); simpl;
      split; intros; try done; try lia; by destruct (Hne input).
  - destruct (Z.ltb_spec input minT), (Z.ltb_spec maxT input); simpl;
      split; intros; try done; try lia; auto; by destruct (Hne input).
  - intros Hinv.
    destruct (Z.ltb_spec input minT), (Z.ltb_spec maxT input); simpl;
      try apply Hne; lia.
  - intros Hle.
    destruct (Z.ltb_spec minT minT), (Z.ltb_spec maxT minT),
      (Z.ltb_spec maxT maxT), (Z.ltb_spec maxT minT); simpl; try lia; done.
Qed.

(** X4. On floats a NaN passes [Within] whatever the bounds, since both
    comparisons with a NaN are false; for the same reason a NaN bound is not
    checked: with two NaN bounds every input passes, and with a NaN lower
    bound only the upper bound decides. *)
Theorem Within_float_NaN (tb : TB spec_float) (minT maxT input : spec_float) :
  Within tb minT maxT S754_nan = tb
  ∧ Within tb S754_nan S754_nan input = tb
  ∧ (Within tb S754_nan maxT input = tb ↔ SFltb maxT input = false)
  ∧ (Within tb minT S754_nan input = tb ↔ SFltb input minT = false).
Proof.
  assert (Hl : ∀ x, SFltb x S754_nan = false) by (by intros []).
  assert (Hr : ∀ x, SFltb S754_nan x = false) by (by intros []).
  unfold Within. simpl. rewrite !Hl, !Hr. simpl. split_and!; try done.
  - destruct (SFltb maxT input); [|done]. split; [|done].
    intros Heq. by apply errorfNow_neq in Heq.
  - rewrite orb_false_r. destruct (SFltb input minT); [|done]. split; [|done].
    intros Heq. by apply errorfNow_neq in Heq.
Qed.

(** ** Panics and NotPanics *)

(** X5. [Panics] and [NotPanics] never let a panic through. When [fn]
    returns, [NotPanics] passes and [Panics] fails, logging [fn] and the nil
    recovered value; when [fn] panics, [Panics] passes and [NotPanics] fails,
    logging [fn], the payload of the panic and the stack trace. So exactly
    one of the two passes on every [fn]. *)
Theorem Panics_NotPanics_dual (debug_Stack : string) (tb : TB panicArg) (fn : func) :
  match fn () with
  | Returned =>
      NotPanics debug_Stack tb fn = (tb, Returned)
      ∧ Panics debug_Stack tb fn
        = (errorfNow tb Panics_failureFormat [ArgFunc fn; ArgRecovered VNil],
           Returned)
  | Panicking payload =>
      Panics debug_Stack tb fn = (tb, Returned)
      ∧ NotPanics debug_Stack tb fn
        = (errorfNow tb NotPanics_failureFormat
             [ArgFunc fn; ArgRecovered payload; ArgStack debug_Stack],
           Returned)
  end
  ∧ ((Panics debug_Stack tb fn).1 = tb ↔ (NotPanics debug_Stack tb fn).1 ≠ tb).
Proof.
  unfold Panics, NotPanics, panicHandler.
  destruct (fn ()) as [|payload]; simpl; (split; [done|]).
  - split; [intros Heq; by apply errorfNow_neq in Heq | done].
  - split; [intros _; apply errorfNow_neq | done].
Qed.

(** ** Every assertion reports once *)


(** ** The test double *)

Lemma Tester_perform_all (tb : TB bool) (mustfail : bool) (calls : list Tester.call) :
  ∀ t, Tester.TB_ t = tb → Tester.mustfail t = mustfail →
    let t' := foldl Tester.perform t calls in
    Tester.TB_ t' = tb ∧ Tester.mustfail t' = mustfail
    ∧ Tester.Failed t' = Tester.failed t || existsb Tester.signalsFailure calls.
Proof.
  induction calls as [|c calls IH]; intros t Htb Hm; simpl.
  { by rewrite orb_false_r. }
  destruct (IH (Tester.perform t c)) as (Htb' & Hm' & Hf').
  - by destruct c.
  - by destruct c.
  - split_and!; [done|done|]. rewrite Hf'.
    destruct c; simpl; by rewrite ?orb_true_r.
Qed.

(** X7. Whatever calls a test double receives after [NewTester], it has
    failed exactly when one of them was a failure signal ([Error], [Errorf],
    [Fail], [FailNow], [Fatal], [Fatalf]; never [Log] or [Logf]); the failed
    mark is never cleared, and the handle it wraps and the expectation are
    left untouched. *)
Theorem Tester_failed_iff_signalled (tb : TB bool) (mustfail : bool)
  (calls more : list Tester.call) :
  let t := foldl Tester.perform (Tester.NewTester tb mustfail) calls in
  Tester.Failed t = existsb Tester.signalsFailure calls
  ∧ Tester.TB_ t = tb
  ∧ Tester.mustfail t = mustfail
  ∧ (Tester.Failed t = true → Tester.Failed (foldl Tester.perform t more) = true).
Proof.
  destruct (Tester_perform_all tb mustfail calls (Tester.NewTester tb mustfail))
    as (Htb & Hm & Hf); [done|done|].
  simpl. split_and!; [done|done|done|].
  intros Hfailed.
  destruct (Tester_perform_all tb mustfail more
              (foldl Tester.perform (Tester.NewTester tb mustfail) calls))
    as (_ & _ & Hf'); [done|done|].
  rewrite Hf'. unfold Tester.Failed in Hfailed. by rewrite Hfailed.
Qed.

(** X8. [AssertExpectation] fails the wrapped handle, with one diagnostic
    holding the expected and the seen outcome, exactly when the double has
    failed without being expected to or has not failed although expected to;
    otherwise it leaves everything as it was. So a test that runs an
    assertion on a fresh double fails exactly when the calls the double
    received do not meet the expectation. *)
Theorem AssertExpectation_spec (tb : TB bool) (mustfail : bool)
  (calls : list Tester.call) :
  let t := foldl Tester.perform (Tester.NewTester tb mustfail) calls in
  let signalled := existsb Tester.signalsFailure calls in
  Tester.TB_ (Tester.AssertExpectation t)
  = (if Bool.eqb signalled mustfail then tb
     else errorfNow tb Tester.AssertExpectation_format [mustfail; signalled])
  ∧ Tester.Failed (Tester.AssertExpectation t) = signalled
  ∧ (Tester.TB_ (Tester.AssertExpectation t) = tb ↔ signalled = mustfail).
Proof.
  destruct (Tester_perform_all tb mustfail calls (Tester.NewTester tb mustfail))
    as (Htb & Hm & Hf); [done|done|].
  simpl in *. unfold Tester.AssertExpectation, Tester.Failed in *.
  rewrite Hf, Hm, Htb.
  pose proof (errorfNow_neq tb Tester.AssertExpectation_format
                [mustfail; existsb Tester.signalsFailure calls]) as Hne.
  destruct (existsb Tester.signalsFailure calls), mustfail; simpl;
    split_and!; try done; split; try done; intros Heq; by destruct Hne.
Qed.

(** ** The sequence differ: what the residues hold *)

Section SliceResidues.
Context {E : Type} `{GoType E}.
Implicit Types (s xs ys a b r ms : list E) (visited : list bool) (i n : nat).

(** One scan, by the element it claims. *)
Lemma scan_result (p : E → bool) s : ∀ visited i,
  i + length s ≤ length visited →
  ∃ visited' found,
    scan p s visited i = Some (visited', found)
    ∧ length visited' = length visited
    ∧ take i visited' = take i visited
    ∧ if found then
        ∃ y, p y = true ∧ y ∈ s
             ∧ unclaimed s (drop i visited) ≡ₚ y :: unclaimed s (drop i visited')
      else
        visited' = visited
        ∧ Forall (λ y, p y = false) (unclaimed s (drop i visited)).
Proof.
  induction s as [|e s IH]; intros visited i Hlen; simpl in Hlen.
  { exists visited, false. simpl. split_and!; try done. }
  destruct (lookup_lt_is_Some_2 visited i) as [v Hv]; [lia|].
  simpl scan. rewrite Hv, (drop_S _ _ _ Hv). simpl unclaimed.
  destruct (negb v && p e) eqn:Hhit.
  - apply andb_true_iff in Hhit as [Hv' Hpe]. destruct v; [done|].
    exists (<[i:=true]> visited), true.
    split_and!; [done|by rewrite length_insert|by rewrite take_insert_ge|].
    exists e. split_and!; [done|by left|].
    rewrite (drop_S (<[i:=true]> visited) true i)
      by (apply list_lookup_insert_eq; lia).
    by rewrite drop_insert_lt by lia.
  - destruct (IH visited (S i)) as (visited' & found & Hs & Hl & Ht & Hf); [lia|].
    exists visited', found.
    assert (Hv2 : visited' !! i = Some v).
    { rewrite <- (lookup_take_lt visited' (S i) i) by lia.
      rewrite Ht, lookup_take_lt by lia. done. }
    split_and!; [done|done| |].
    + apply (f_equal (take i)) in Ht. rewrite !take_take in Ht.
      by replace (i `min` S i) with i in Ht by lia.
    + destruct found.
      * destruct Hf as (y & Hp & Hy & Hperm). exists y.
        split_and!; [done|by right|].
        rewrite (drop_S _ _ _ Hv2). simpl.
        destruct v; [done|]. rewrite Hperm. apply Permutation_swap.
      * destruct Hf as [-> Hall]. split; [done|].
        destruct v; [done|]. constructor; [|done].
        simpl in Hhit. done.
Qed.

(** One pass of the differ: the residue it appends, and the elements [ms] of
    [ys] that it claims. *)
Lemma differ_result (eq : E → E → bool) xs ys : ∀ visited nonMatched,
  length ys ≤ length visited →
  ∃ visited' r ms,
    differ eq xs ys visited nonMatched = Some (visited', nonMatched ++ r)
    ∧ length visited' = length visited
    ∧ r `sublist_of` xs
    ∧ (∀ x, x ∈ xs → (∀ y, y ∈ ys → eq x y = false) → x ∈ r)
    ∧ unclaimed ys visited ≡ₚ ms ++ unclaimed ys visited'
    ∧ length r + length ms = length xs
    ∧ (r = [] → Forall2 (λ x y, eq x y = true) xs ms).
Proof.
  induction xs as [|x xs IH]; intros visited nonMatched Hlen; simpl.
  { exists visited, [], []. rewrite app_nil_r. split_and!; try done. }
  destruct (scan_result (eq x) ys visited 0) as
    (visited1 & found & -> & Hl1 & _ & Hf); [simpl; lia|].
  rewrite !drop_0 in Hf. destruct found; simpl.
  - destruct Hf as (y & Hp & Hy & Hperm).
    destruct (IH visited1 nonMatched) as
      (visited' & r & ms & -> & Hl & Hsub & Hin & Hperm' & Hcount & Hall); [lia|].
    exists visited', r, (y :: ms).
    split_and!; [done|lia|by apply sublist_cons| |by rewrite Hperm, Hperm'
                |simpl; lia|intros Hr; constructor; auto].
    intros x' [->|Hx']%elem_of_cons Hnone; [|by apply Hin].
    by rewrite (Hnone y Hy) in Hp.
  - destruct Hf as [-> Hnone].
    destruct (IH visited (nonMatched ++ [x])) as
      (visited' & r & ms & -> & Hl & Hsub & Hin & Hperm' & Hcount & Hall); [lia|].
    exists visited', (x :: r), ms.
    split_and!; [by rewrite <- app_assoc|done|by apply sublist_skip|
                 |done|simpl; lia|done].
    intros x' [->|Hx']%elem_of_cons Hno; [by left|right; by apply Hin].
Qed.

Lemma differ_against_empty (eq : E → E → bool) xs : ∀ visited nonMatched,
  differ eq xs [] visited nonMatched = Some (visited, nonMatched ++ xs).
Proof.
  induction xs as [|x xs IH]; intros visited nonMatched; simpl.
  - by rewrite app_nil_r.
  - by rewrite IH, <- app_assoc.
Qed.

Lemma nonMatchingSlices_result a b :
  length b ≤ length a →
  ∃ rA rB msA msB,
    nonMatchingSlices a b = Some (rA, rB)
    ∧ rA `sublist_of` a ∧ rB `sublist_of` b
    ∧ (∀ x, x ∈ a → (∀ y, y ∈ b → DeepEqual x y = false) → x ∈ rA)
    ∧ (∀ y, y ∈ b → (∀ x, x ∈ a → DeepEqual x y = false) → y ∈ rB)
    ∧ length rA + length msA = length a
    ∧ length rB + length msB = length b
    ∧ msA ⊆+ b ∧ msB ⊆+ a
    ∧ (rA = [] → Forall2 (λ x y, DeepEqual x y = true) a msA)
    ∧ (length a = length b → rA = [] → msA ≡ₚ b).
Proof.
  intros Hlen. unfold nonMatchingSlices.
  assert (Hn : length (makeBools (length a)) = length a)
    by (unfold makeBools; apply length_replicate).
  destruct (differ_result (λ x y, DeepEqual x y) a b (makeBools (length a)) [])
    as (v1 & rA & msA & -> & Hl1 & HsubA & HinA & HpermA & HcountA & HallA); [lia|].
  simpl. rewrite clear_makeBools, Hl1, Hn.
  destruct (differ_result (λ y x, DeepEqual x y) b a (makeBools (length a)) [])
    as (v2 & rB & msB & -> & Hl2 & HsubB & HinB & HpermB & HcountB & HallB); [lia|].
  simpl. rewrite unclaimed_makeBools in HpermA, HpermB by lia.
  exists rA, rB, msA, msB. split_and!; try done.
  - rewrite HpermA. by apply submseteq_inserts_r.
  - rewrite HpermB. by apply submseteq_inserts_r.
  - intros Heq ->. simpl in HcountA.
    assert (Hnil : unclaimed b v1 = []).
    { apply length_zero_iff_nil. apply Permutation_length in HpermA.
      rewrite length_app in HpermA. lia. }
    by rewrite HpermA, Hnil, app_nil_r.
Qed.

End SliceResidues.

(** X9. Against an empty (or nil) slice nothing can match: the residue of the
    other slice is that slice itself, in either argument position, and there
    is no panic even where the marker array is empty. *)
Theorem nonMatchingSlices_against_empty {E} `{GoType E} (a : list E) :
  nonMatchingSlices a [] = Some (a, [])
  ∧ nonMatchingSlices [] a = Some ([], a).
Proof.
  unfold nonMatchingSlices. split.
  - by rewrite differ_against_empty.
  - simpl. by rewrite differ_against_empty.
Qed.

(** X10. When [b] is not longer than [a], [nonMatchingSlices a b] returns two
    residues that are sub-sequences of [a] and of [b], in the order of the
    inputs; an element without any deeply equal element in the other slice is
    always in its residue; and at most [len(b)] elements of [a] are left out
    of the first residue. *)
Theorem nonMatchingSlices_residues {E} `{GoType E} (a b : list E)
  (Hlen : length b ≤ length a) :
  ∃ rA rB,
    nonMatchingSlices a b = Some (rA, rB)
    ∧ rA `sublist_of` a ∧ rB `sublist_of` b
    ∧ (∀ x, x ∈ a → (∀ y, y ∈ b → DeepEqual x y = false) → x ∈ rA)
    ∧ (∀ y, y ∈ b → (∀ x, x ∈ a → DeepEqual x y = false) → y ∈ rB)
    ∧ length a ≤ length rA + length b.
Proof.
  destruct (nonMatchingSlices_result a b Hlen) as
    (rA & rB & msA & msB & Hd & HsA & HsB & HiA & HiB & HcA & _ & HmA & _).
  exists rA, rB. split_and!; try done.
  apply submseteq_length in HmA. lia.
Qed.

(** The slices of the test case "string match", the longer one first. *)
Lemma nonMatchingSlices_residues_witness :
  let a := VString <$> ["abc"; "def"; "ghi"; "jkl"; "abc"]%string in
  let b := VString <$> ["abc"; "def"; "ghi"; "jkl"]%string in
  ∃ rA rB,
    nonMatchingSlices a b = Some (rA, rB)
    ∧ rA `sublist_of` a ∧ rB `sublist_of` b
    ∧ (∀ x, x ∈ a → (∀ y, y ∈ b → DeepEqual x y = false) → x ∈ rA)
    ∧ (∀ y, y ∈ b → (∀ x, x ∈ a → DeepEqual x y = false) → y ∈ rB)
    ∧ length a ≤ length rA + length b.
Proof.
  apply (nonMatchingSlices_residues
           (VString <$> ["abc"; "def"; "ghi"; "jkl"; "abc"]%string)
           (VString <$> ["abc"; "def"; "ghi"; "jkl"]%string)).
  simpl. lia.
Defined.

Lemma SlicesMatch_pass_inv {E} `{GoType E} (tb : TB sliceArg) (a b : list E) :
  SlicesMatch tb a b = Some tb →
  length a = length b ∧ nonMatchingSlices a b = Some ([], []).
Proof.
  unfold SlicesMatch, SlicesMatchWith.
  destruct (Nat.eqb_spec (length a) (length b)) as [Hlen|Hlen]; simpl.
  - destruct (nonMatchingSlices a b) as [[rA rB]|]; simpl; [|done].
    destruct rA, rB; simpl; try done;
      intros [= Heq]; by apply errorfNow_neq in Heq.
  - intros [= Heq]. by apply errorfNow_neq in Heq.
Qed.

(** X11. When [SlicesMatch] passes, the two slices have the same length and
    the input is a rearrangement of a slice that is deeply equal to the
    expected one element by element: every expected element has a counterpart
    of its own in the input, and no input element is left over. *)
Theorem SlicesMatch_sound {E} `{GoType E} (tb : TB sliceArg) (expected input : list E)
  (Hpass : SlicesMatch tb expected input = Some tb) :
  length expected = length input
  ∧ ∃ ms, Forall2 (λ x y, DeepEqual x y = true) expected ms ∧ ms ≡ₚ input.
Proof.
  destruct (SlicesMatch_pass_inv tb expected input Hpass) as [Hlen Hd].
  split; [done|].
  destruct (nonMatchingSlices_result expected input) as
    (rA & rB & msA & msB & Hd' & _ & _ & _ & _ & _ & _ & _ & _ & Hall & Hperm);
    [lia|].
  rewrite Hd in Hd'. injection Hd' as <- <-.
  exists msA. split; [by apply Hall | by apply Hperm].
Qed.

(** The slices of the test case "int match". *)
Lemma SlicesMatch_sound_witness :
  length (ints [5; 1; 3; 4; 2]%Z) = length (ints [1; 2; 3; 4; 5]%Z)
  ∧ ∃ ms, Forall2 (λ x y, DeepEqual x y = true) (ints [5; 1; 3; 4; 2]%Z) ms
          ∧ ms ≡ₚ ints [1; 2; 3; 4; 5]%Z.
Proof.
  apply (SlicesMatch_sound newTB (ints [5; 1; 3; 4; 2]%Z) (ints [1; 2; 3; 4; 5]%Z)).
  reflexivity.
Defined.

Section SliceCompleteness.
Context {E : Type} `{GoType E}.
Implicit Types (a b ms : list E).

Lemma countIf_ext_in (p q : E → bool) a :
  (∀ x, x ∈ a → p x = q x) → countIf p a = countIf q a.
Proof.
  induction a as [|x a IH]; intros Hpq; simpl; [done|].
  rewrite (Hpq x) by by left. rewrite IH; [done|].
  intros y Hy. apply Hpq. by right.
Qed.

Lemma countIf_Forall2 (C : E → Prop) (eq : E → E → bool) c a ms :
  equivalenceOn C eq → C c →
  Forall2 (λ x y, eq x y = true) a ms →
  (∀ x, x ∈ a → C x) → (∀ y, y ∈ ms → C y) →
  countIf (eq c) a = countIf (eq c) ms.
Proof.
  intros Heq Hc. induction 1 as [|x y a ms Hxy _ IH]; intros Ha Hms; simpl.
  { done. }
  assert (Hx : C x) by (apply Ha; by left).
  assert (Hy : C y) by (apply Hms; by left).
  rewrite (equivalenceOn_class C eq c x y Heq Hc Hx Hy Hxy).
  rewrite IH; [done| |]; intros z Hz; [apply Ha|apply Hms]; by right.
Qed.

(** Both residues are empty when [b] rearranges a slice matching [a] element
    by element and deep equality is an equivalence on the elements. *)
Lemma nonMatchingSlices_matching a b ms :
  Forall2 (λ x y, DeepEqual x y = true) a ms → ms ≡ₚ b →
  equivalenceOn (λ x, x ∈ a ∨ x ∈ b) DeepEqual →
  nonMatchingSlices a b = Some ([], []).
Proof.
  intros Hall Hperm Heq. unfold nonMatchingSlices.
  set (C := λ x : E, x ∈ a ∨ x ∈ b) in *.
  assert (Hlen : length a = length b).
  { rewrite <- (Permutation_length Hperm). by eapply Forall2_length. }
  assert (Hms : ∀ y, y ∈ ms → C y) by (intros y Hy; right; by rewrite <- Hperm).
  assert (Ha : ∀ x, x ∈ a → C x) by (intros x Hx; by left).
  assert (Hb : ∀ y, y ∈ b → C y) by (intros y Hy; by right).
  assert (Hn : length (makeBools (length a)) = length a)
    by (unfold makeBools; apply length_replicate).
  destruct (differ_all_matched C (λ x y, DeepEqual x y) a b Heq Hb
              (makeBools (length a)) []) as (visited & -> & Hl); [done|lia| |].
  { intros c Hc. rewrite unclaimed_makeBools by lia.
    rewrite (countIf_Forall2 C DeepEqual c a ms), (countIf_Permutation _ ms b);
      done. }
  simpl. rewrite clear_makeBools, Hl, Hn.
  pose proof (equivalenceOn_flip _ _ Heq) as Hflip.
  destruct (differ_all_matched C (λ y x, DeepEqual x y) b a Hflip Ha
              (makeBools (length a)) []) as (visited' & -> & _); [done|lia| |done].
  intros c Hc. rewrite unclaimed_makeBools by lia.
  rewrite <- (countIf_Permutation _ ms b) by done.
  rewrite (countIf_Forall2 C (λ y x, DeepEqual x y) c ms a); try done.
  apply Forall2_flip. eapply Forall2_impl; [exact Hall|].
  intros x y Hxy. done.
Qed.

End SliceCompleteness.

Lemma zeros_equivalence :
  equivalenceOn
    (λ x, x ∈ [VFloat (S754_zero false); VInt 7]
          ∨ x ∈ [VInt 7; VFloat (S754_zero true)])
    DeepEqual.
Proof.
  split; simpl.
  - intros x Hx. set_unfold. naive_solver.
  - intros x y _ _. by rewrite deepValueEqual_sym.
  - intros x y z. set_unfold. intros Hx Hy Hz.
    destruct Hx as [[?|[?|[]]]|[?|[?|[]]]], Hy as [[?|[?|[]]]|[?|[?|[]]]],
      Hz as [[?|[?|[]]]|[?|[?|[]]]];
      subst; vm_compute; congruence.
Qed.

(** X12. Conversely, when deep equality is an equivalence on the elements of
    the two slices, [SlicesMatch] passes as soon as the input is a
    rearrangement of a slice deeply equal to the expected one element by
    element: the greedy choice of the first unclaimed counterpart never
    strands an element. *)
Theorem SlicesMatch_complete {E} `{GoType E} (tb : TB sliceArg)
  (expected input ms : list E)
  (Hequiv : equivalenceOn (λ x, x ∈ expected ∨ x ∈ input) DeepEqual)
  (Hall : Forall2 (λ x y, DeepEqual x y = true) expected ms)
  (Hperm : ms ≡ₚ input) :
  SlicesMatch tb expected input = Some tb.
Proof.
  pose proof (nonMatchingSlices_matching expected input ms Hall Hperm Hequiv) as Hd.
  unfold SlicesMatch, SlicesMatchWith.
  assert (Hlen : length expected = length input).
  { rewrite <- (Permutation_length Hperm). by eapply Forall2_length. }
  by rewrite Hlen, Nat.eqb_refl, Hd.
Qed.

(** A positive zero and an int against the int and a negative zero: the two
    zeros are deeply equal without being the same value. *)
Lemma SlicesMatch_complete_witness :
  SlicesMatch newTB [VFloat (S754_zero false); VInt 7]
    [VInt 7; VFloat (S754_zero true)] = Some newTB.
Proof.
  apply (SlicesMatch_complete newTB
           [VFloat (S754_zero false); VInt 7] [VInt 7; VFloat (S754_zero true)]
           [VFloat (S754_zero true); VInt 7] zeros_equivalence).
  - repeat constructor.
  - apply Permutation_swap.
Defined.

(** X13. On two one-element slices [SlicesMatch] passes exactly when [Equal]
    passes on the two elements. *)
Theorem SlicesMatch_singletons_Equal {E} `{GoType E}
  (tb : TB sliceArg) (tb' : TB E) (x y : E) :
  SlicesMatch tb [x] [y] = Some tb ↔ Equal tb' x y = tb'.
Proof.
  unfold SlicesMatch, SlicesMatchWith, nonMatchingSlices, Equal. simpl.
  destruct (DeepEqual x y); simpl.
  - done.
  - split; [intros [= Heq]|intros Heq]; by apply errorfNow_neq in Heq.
Qed.

(** ** MapsMatch and the residues of the mapping differ *)

(** X14. [MapsMatch] passes exactly when neither map has a NaN key and the
    two maps have the same keys and deeply equal values at every key; so it
    fails on every pair of maps of different sizes. It never compares sizes:
    whenever it fails, on maps of different sizes too, what it logs is the
    two residues of the differ. *)
Theorem MapsMatch_passes_iff_same_entries {K} `{Countable K} {U E} `{GoType E}
  (tb : TB (gomap K U E)) (expected input : gomap K U E) :
  (MapsMatch tb expected input = tb
   ↔ nanEntries expected = [] ∧ nanEntries input = []
     ∧ ∀ k, match entries expected !! k, entries input !! k with
            | Some x, Some y => DeepEqual x y = true
            | None, None => True
            | _, _ => False
            end)
  ∧ (MapsMatch tb expected input = tb → len expected = len input)
  ∧ (MapsMatch tb expected input ≠ tb →
     MapsMatch tb expected input
     = errorfNow tb MapsMatch_failureFormat
         [(nonMatchingMaps expected input).1; (nonMatchingMaps expected input).2]).
Proof.
  rewrite MapsMatch_pass_iff, nonMatchingMaps_empty_iff. split_and!; [done| |].
  - rewrite <- nonMatchingMaps_empty_iff. apply nonMatchingMaps_empty_len.
  - rewrite <- nonMatchingMaps_empty_iff.
    destruct (MapsMatch_cases tb expected input) as [[Hd _]|[_ ->]]; done.
Qed.

(** X15. The residues of [nonMatchingMaps a b]. Under the keys that can be
    found: the first residue is a sub-map of [a]; a key of [a] that [b] lacks
    is in the first residue with the value of [a]; a key of [b] that [a]
    lacks is in the second with the value of [b]; a key of both is in both
    residues, each with the value of its own map, when the two values are not
    deeply equal, and in neither when they are. Under NaN keys, which are
    never found: every such entry of [a] is in the first residue, twice when
    its value is not deeply equal to the zero value, in which case the second
    residue gets the key with the zero value; every such entry of [b] is in
    the second residue (the entries under NaN keys are a bag: they are given
    up to their order). *)
Theorem nonMatchingMaps_residues {K} `{Countable K} {U E} `{GoType E}
  (a b : gomap K U E) :
  ∃ aout bout : mapObject K U E,
    nonMatchingMaps a b = (Some aout, Some bout)
    ∧ found aout ⊆ entries a
    ∧ (∀ k x, entries a !! k = Some x → entries b !! k = None →
              found aout !! k = Some x)
    ∧ (∀ k y, entries a !! k = None → entries b !! k = Some y →
              found aout !! k = None ∧ found bout !! k = Some y)
    ∧ (∀ k x y, entries a !! k = Some x → entries b !! k = Some y →
                if DeepEqual x y
                then found aout !! k = None ∧ found bout !! k = None
                else found aout !! k = Some x ∧ found bout !! k = Some y)
    ∧ (∀ k, entries a !! k = None → entries b !! k = None →
            found aout !! k = None ∧ found bout !! k = None)
    ∧ lost aout
      ≡ₚ flat_map (λ e, if DeepEqual e.2 zero then [e] else [e; e]) (nanEntries a)
    ∧ lost bout
      ≡ₚ flat_map (λ e, if DeepEqual e.2 zero then [] else [(e.1, zero)])
           (nanEntries a) ++ nanEntries b.
Proof.
  destruct (nonMatchingMaps_lookup a b) as (aout & bout & Hd & Hla & Hlb & Hk).
  exists aout, bout.
  split_and!; [done| | | | | |by rewrite Hla|by rewrite Hlb].
  - apply map_subseteq_spec. intros k x. destruct (Hk k) as [-> _].
    destruct (entries a !! k) as [x'|], (entries b !! k) as [y|]; simpl;
      try done.
    by destruct (DeepEqual x' y).
  - intros k x Ha Hb. destruct (Hk k) as [-> _]. by rewrite Ha, Hb.
  - intros k y Ha Hb. destruct (Hk k) as [-> ->]. by rewrite Ha, Hb.
  - intros k x y Ha Hb. destruct (Hk k) as [-> ->]. rewrite Ha, Hb. simpl.
    by destruct (DeepEqual x y).
  - intros k Ha Hb. destruct (Hk k) as [-> ->]. by rewrite Ha, Hb.
Qed.

(** ** Equal on two values *)

Lemma Equal_fail_iff {T} `{GoType T} (tb : TB T) (x y : T) :
  Equal tb x y = errorfNow tb Equal_failureFormat [x; y]
  ↔ DeepEqual x y = false.
Proof.
  unfold Equal. destruct (DeepEqual x y); simpl; [|done].
  split; [|done]. intros Heq. symmetry in Heq. by apply errorfNow_neq in Heq.
Qed.

(** X16. On values of type [any], [Equal] fails, logging the two values,
    whenever the two are of different kinds (a bool and an int, say),
    whenever one is nil and the other is not, whenever one of them is a
    floating-point NaN and whenever one of them is a non-nil func. *)
Theorem Equal_any (tb : TB value) (x y : value) :
  (kind x ≠ kind y → Equal tb x y = errorfNow tb Equal_failureFormat [x; y])
  ∧ (y ≠ VNil →
     Equal tb VNil y = errorfNow tb Equal_failureFormat [VNil; y]
     ∧ Equal tb y VNil = errorfNow tb Equal_failureFormat [y; VNil])
  ∧ (Equal tb NaN y = errorfNow tb Equal_failureFormat [NaN; y]
     ∧ Equal tb y NaN = errorfNow tb Equal_failureFormat [y; NaN])
  ∧ (∀ c, Equal tb (VFunc c) y = errorfNow tb Equal_failureFormat [VFunc c; y]
          ∧ Equal tb y (VFunc c) = errorfNow tb Equal_failureFormat [y; VFunc c]).
Proof.
  rewrite !Equal_fail_iff. setoid_rewrite Equal_fail_iff. simpl. split_and!.
  - by destruct x, y.
  - by destruct y.
  - by destruct y as [| | |[]| | | | | |].
  - by destruct y as [| | |[]| | | | | |].
  - intros c. by destruct y.
Qed.

(** ** When the sequence differ panics *)

(** X17. [nonMatchingSlices a b] can only panic, on a read of the marker
    array out of its range, when [b] is longer than [a] and [a] is not
    empty. *)
Theorem nonMatchingSlices_panics_only_longer {E} `{GoType E} (a b : list E)
  (Hpanic : nonMatchingSlices a b = None) :
  length a < length b ∧ a ≠ [].
Proof.
  split.
  - apply Nat.nle_gt. intros Hlen.
    destruct (nonMatchingSlices_in_bounds a b Hlen) as [r Hr]. congruence.
  - intros ->. unfold nonMatchingSlices in Hpanic. simpl in Hpanic.
    by rewrite differ_against_empty in Hpanic.
Qed.

(** One element against two that do not match it. *)
Lemma nonMatchingSlices_panics_only_longer_witness :
  length (ints [1]%Z) < length (ints [2; 3]%Z) ∧ ints [1]%Z ≠ [].
Proof.
  apply (nonMatchingSlices_panics_only_longer (ints [1]%Z) (ints [2; 3]%Z)).
  reflexivity.
Defined.
